(** * wordgame.py: the change-one-letter word game solved by A* search

    A shallow embedding of [src/wordgame.py] (Python 2) and the proofs of
    the properties its specification states about it.

    Conventions of the embedding:
    - a Python [str] is a [string] (a sequence of bytes); iterating over it,
      [list(s)] and [chr(n)] yield characters, modelled as [ascii];
    - a Python [int] is a [Z]; list indices and lengths are [nat];
    - a Python [set] of words is a [gset string], a [dict] keyed by words a
      [gmap string _];
    - a Python [float] is an IEEE 754 double, a [spec_float] with the
      operations of the Standard Library at precision 53;
    - an operation that can raise returns a [result]; the code that reads
      the dictionary file runs in the monad [M] over a [World]; a function
      that recurses takes the number of nested calls the interpreter still
      allows and raises when it has none left. *)

From Stdlib Require Import ZArith Ascii String List Lia DecimalString.
From Stdlib Require Import SpecFloat.
From stdpp Require Import gmap strings list sorting.

Local Open Scope Z_scope.

(** ** Exceptions and results *)

Inductive exn : Type :=
  | IndexError
  | KeyError
  | ZeroDivisionError
  | AttributeError
  | IOError
  | OverflowError
  | RuntimeError (msg : string).

Inductive result (A : Type) : Type :=
  | Ok (a : A)
  | Raise (e : exn).

Arguments Ok {A} a.
Arguments Raise {A} e.

#[global] Instance result_ret : MRet result := fun A a => Ok a.

#[global] Instance result_bind : MBind result := fun A B f m =>
  match m with
  | Ok a => f a
  | Raise e => Raise e
  end.

(** A [for] loop whose body can raise: the accumulator is threaded through
    the elements from left to right and the first exception ends the loop. *)
Fixpoint foldM {A B : Type} (f : B -> A -> result B) (l : list A) (b : B)
  : result B :=
  match l with
  | [] => Ok b
  | x :: l' => b' ← f b x; foldM f l' b'
  end.

(** ** Python built-ins used by the module *)

(** [l[i]] for a non-negative index. *)
Definition getitem {A : Type} (l : list A) (i : nat) : result A :=
  match l !! i with
  | Some x => Ok x
  | None => Raise IndexError
  end.

(** [l[-1]]. *)
Definition getitem_last {A : Type} (l : list A) : result A :=
  match last l with
  | Some x => Ok x
  | None => Raise IndexError
  end.

(** [l[i] = x] for a non-negative index. *)
Definition setitem {A : Type} (l : list A) (i : nat) (x : A)
  : result (list A) :=
  if decide (i < length l)%nat then Ok (<[i := x]> l) else Raise IndexError.

(** [enumerate(l)], counting from [k]. *)
Fixpoint enumerate_from {A : Type} (k : nat) (l : list A) : list (nat * A) :=
  match l with
  | [] => []
  | x :: l' => (k, x) :: enumerate_from (S k) l'
  end.

Definition enumerate {A : Type} (l : list A) : list (nat * A) :=
  enumerate_from 0 l.

(** [range(n)] as it is iterated, and as a list of integers. *)
Definition range (n : nat) : list nat := seq 0 n.

Definition range_Z (n : nat) : list Z := map Z.of_nat (range n).

(** [list(s)] and [''.join(l)]. *)
Definition chars (s : string) : list ascii := list_ascii_of_string s.

Definition join (l : list ascii) : string := string_of_list_ascii l.

Definition len (s : string) : nat := String.length s.

(** [min(a, b, c)]. *)
Definition min3 (a b c : Z) : Z := Z.min (Z.min a b) c.

(** A [bool] used as an [int]. *)
Definition int_of_bool (b : bool) : Z := if b then 1 else 0.

(** [c1 != c2] on characters. *)
Definition char_ne (c1 c2 : ascii) : bool := negb (Ascii.eqb c1 c2).

(** ** levenshtein *)

(** The body of the inner loop [for j, c2 in enumerate(s2)]. *)
Definition levenshtein_inner (c1 : ascii) (previous_row : list Z)
    (current_row : list Z) (jc : nat * ascii) : result (list Z) :=
  let '(j, c2) := jc in
  p1 ← getitem previous_row (j + 1);
  let insertions := p1 + 1 in
  cj ← getitem current_row j;
  let deletions := cj + 1 in
  p0 ← getitem previous_row j;
  let substitutions := p0 + int_of_bool (char_ne c1 c2) in
  Ok (current_row ++ [min3 insertions deletions substitutions]).

(** The body of the outer loop [for i, c1 in enumerate(s1)]: the new value
    of [previous_row]. *)
Definition levenshtein_outer (s2 : string) (previous_row : list Z)
    (ic : nat * ascii) : result (list Z) :=
  let '(i, c1) := ic in
  foldM (levenshtein_inner c1 previous_row) (enumerate (chars s2))
        [Z.of_nat i + 1].

(** The function from its comment [len(s1) >= len(s2)] on. *)
Definition levenshtein_rows (s1 s2 : string) : result Z :=
  if decide (len s2 = 0%nat) then Ok (Z.of_nat (len s1))
  else
    previous_row ← foldM (levenshtein_outer s2) (enumerate (chars s1))
                         (range_Z (len s2 + 1));
    getitem_last previous_row.

(** [levenshtein(s1, s2)].  The recursive call swaps the arguments when
    [len(s1) < len(s2)]; in the call the first argument is the longer one,
    so it does not recurse again and the recursion is unfolded here. *)
Definition levenshtein (s1 s2 : string) : result Z :=
  if decide (len s1 < len s2)%nat then levenshtein_rows s2 s1
  else levenshtein_rows s1 s2.

(** ** The dictionary file *)

(** What the module sees of its environment: the files it can open, each
    as the list of lines [readlines()] returns (line terminators included),
    and the files opened so far, most recent first. *)
Record World : Type := mkWorld {
  files : gmap string (list string);
  opened : list string
}.

(** Computations that read the environment and can raise: the world is
    threaded through, and an exception keeps the world reached so far. *)
Definition M (A : Type) : Type := World -> result A * World.

#[global] Instance M_ret : MRet M := fun A a w => (Ok a, w).

#[global] Instance M_bind : MBind M := fun A B f m w =>
  match m w with
  | (Ok a, w') => f a w'
  | (Raise e, w') => (Raise e, w')
  end.

Definition raise {A : Type} (e : exn) : M A := fun w => (Raise e, w).

(** [with open(filename) as fin: fin.readlines()]. *)
Definition readlines (filename : string) : M (list string) := fun w =>
  match files w !! filename with
  | Some lines => (Ok lines, mkWorld (files w) (filename :: opened w))
  | None => (Raise IOError, w)
  end.

Definition DICT_FILENAME : string := "words.txt".

(** [ALPHABET = [chr(i+97) for i in range(26)]]. *)
Definition ALPHABET : list ascii :=
  map (fun i => ascii_of_nat (i + 97)) (range 26).

(** The characters [str.strip()] removes: space, and tab, line feed,
    vertical tab, form feed and carriage return (codes 9 to 13). *)
Definition is_space (c : ascii) : bool :=
  let n := nat_of_ascii c in
  (n =? 32)%nat || ((9 <=? n)%nat && (n <=? 13)%nat).

Fixpoint lstrip_chars (l : list ascii) : list ascii :=
  match l with
  | [] => []
  | c :: l' => if is_space c then lstrip_chars l' else l
  end.

(** [s.strip()]: leading, then trailing white space removed. *)
Definition strip (s : string) : string :=
  join (rev (lstrip_chars (rev (lstrip_chars (chars s))))).

(** [str.lower()] on one byte: [A] to [Z] become [a] to [z]. *)
Definition lower_char (c : ascii) : ascii :=
  let n := nat_of_ascii c in
  if ((65 <=? n)%nat && (n <=? 90)%nat)%bool then ascii_of_nat (n + 32)
  else c.

Definition lower (s : string) : string := join (map lower_char (chars s)).

(** [make_dictionary(size)]. *)
Definition make_dictionary (size : nat) : M (gset string) :=
  words ← readlines DICT_FILENAME;
  let words :=
    map (fun w => lower (strip w))
        (filter (fun w => len (strip w) = size) words) in
  mret (list_to_set words).

(** ** Search states and search nodes *)

Record WordState : Type := mkWordState { word : string }.

(** Modelled from the spec: the node class of [astar_fibheap], which is not
    part of the sources.  A SearchNode wraps a state with its path cost [g],
    its heuristic value [h], the list of its [children] and the flag
    [expanded]; this module reads [children] and [expanded] only. *)
#[warning="-register-all"]
Inductive AStarNode : Type :=
  mkNode (state : WordState) (g h : Z) (expanded : bool)
         (children : list AStarNode).

Definition state (n : AStarNode) : WordState :=
  match n with mkNode s _ _ _ _ => s end.

Definition expanded (n : AStarNode) : bool :=
  match n with mkNode _ _ _ e _ => e end.

Definition children (n : AStarNode) : list AStarNode :=
  match n with mkNode _ _ _ _ cs => cs end.

(** ** WordAStar *)

(** The attributes of a [WordAStar] object.  [root] belongs to the parent
    class and is unset ([None]) until the parent constructor has run. *)
Record WordAStar : Type := mkWordAStar {
  sw : string;
  gw : string;
  dictionary : gset string;
  visited : gmap string AStarNode;
  heuristicType : Z;
  root : option AStarNode
}.

Definition set_visited (self : WordAStar) (v : gmap string AStarNode)
  : WordAStar :=
  mkWordAStar (sw self) (gw self) (dictionary self) v (heuristicType self)
              (root self).

Section Constructor.

(** Modelled from the spec: [astar.AStar.__init__(self, state)], the
    constructor of the parent class, which is not part of the sources.
    It creates the root node from the start state and returns the object
    with the parent's attributes set. *)
Variable AStar__init__ : WordAStar -> WordState -> M WordAStar.

(** [WordAStar.__init__(self, startWord, goalWord, heuristicType)]. *)
Definition WordAStar__init__ (startWord goalWord : string)
    (heuristicType : Z) : M WordAStar :=
  if decide (len startWord ≠ len goalWord)
  then raise (RuntimeError "Words must be the same length")
  else
    dictionary ← make_dictionary (len startWord);
    let self :=
      mkWordAStar startWord goalWord dictionary ∅ heuristicType None in
    let state := mkWordState startWord in
    AStar__init__ self state.

End Constructor.

Definition is_goal (self : WordAStar) (state : WordState) : bool :=
  if decide (word state = gw self) then true else false.

Definition clear_visited (self : WordAStar) : WordAStar :=
  set_visited self ∅.

Definition visit (self : WordAStar) (state : WordState) (node : AStarNode)
  : WordAStar :=
  set_visited self (<[word state := node]> (visited self)).

(** [d[k]] on a dict. *)
Definition dict_getitem {V : Type} (d : gmap string V) (k : string)
  : result V :=
  match d !! k with
  | Some v => Ok v
  | None => Raise KeyError
  end.

(** [visited_state_node(self, state)]; the result [None] is Python's. *)
Definition visited_state_node (self : WordAStar) (state : WordState)
  : result (option AStarNode) :=
  if decide (word state ∈ dom (visited self))
  then node ← dict_getitem (visited self) (word state); Ok (Some node)
  else Ok None.

Definition heuristic_null (self : WordAStar) (state : WordState)
  : result Z :=
  Ok 0.

Definition heuristic_custom (self : WordAStar) (state : WordState)
  : result Z :=
  levenshtein (word state) (gw self).

(** [str(n)] for an integer. *)
Definition str (n : Z) : string := DecimalString.NilZero.string_of_int (Z.to_int n).

Definition heuristic (self : WordAStar) (state : WordState) : result Z :=
  if decide (heuristicType self = 0) then heuristic_null self state
  else if decide (heuristicType self = 1) then heuristic_custom self state
  else Raise (RuntimeError
                ("Illegal heuristic type: " ++ str (heuristicType self))).

(** The body of the inner loop of [successors], [for alph in ALPHABET];
    [word_list] is mutated in place and so is part of the loop state. *)
Definition successors_inner (self : WordAStar) (i : nat)
    (st : list ascii * (list WordState * list Z)) (alph : ascii)
  : result (list ascii * (list WordState * list Z)) :=
  let '(word_list, (successors_list, costs_list)) := st in
  word_list ← setitem word_list i alph;
  if decide (join word_list ∈ dictionary self)
  then Ok (word_list,
           (successors_list ++ [mkWordState (join word_list)],
            costs_list ++ [1]))
  else Ok (word_list, (successors_list, costs_list)).

(** The body of the outer loop, [for i in range(len(state.word))]. *)
Definition successors_outer (self : WordAStar) (state : WordState)
    (acc : list WordState * list Z) (i : nat)
  : result (list WordState * list Z) :=
  let word_list := chars (word state) in
  st ← foldM (successors_inner self i) ALPHABET (word_list, acc);
  Ok (snd st).

(** [successors(self, state)]. *)
Definition successors (self : WordAStar) (state : WordState)
  : result (list WordState * list Z) :=
  foldM (successors_outer self state) (range (len (word state))) ([], []).

(** ** Floats and the recursion limit *)

(** A Python [float] is an IEEE 754 double: 53 bits of precision and the
    largest exponent 1024. *)
Definition float : Type := spec_float.

(** [float(n)], also the coercion of an [int] operand of a float
    operation: the nearest double, ties to even, and [OverflowError] where
    that is no finite number. *)
Definition float_of_int (n : Z) : result float :=
  match binary_normalize 53 1024 n 0 false with
  | S754_infinity _ => Raise OverflowError
  | f => Ok f
  end.

(** [a / b] on floats. *)
Definition float_div (a b : float) : result float :=
  match b with
  | S754_zero _ => Raise ZeroDivisionError
  | _ => Ok (SFdiv 53 1024 a b)
  end.

(** What the interpreter raises when a call would nest deeper than the
    recursion limit allows. *)
Definition recursion_error : exn :=
  RuntimeError "maximum recursion depth exceeded".

(** [node_bf(self, node)].  [frames] is the number of nested calls the
    interpreter still allows where the call is made (the recursion limit
    less the frames in use): the call takes one, each recursive call one
    more, and with none left the call raises. *)
Fixpoint node_bf (self : WordAStar) (frames : nat) (node : AStarNode)
  : result (list Z) :=
  match frames with
  | O => Raise recursion_error
  | S frames' =>
      foldM
        (fun bfs c =>
           if expanded c
           then more ← node_bf self frames' c; Ok (bfs ++ more)
           else Ok bfs)
        (children node) [Z.of_nat (length (children node))]
  end.

(** [sum(l)] on integers. *)
Definition sum (l : list Z) : Z := fold_left Z.add l 0.

(** [branching_factor(self)], with [frames] nested calls still allowed
    inside it. *)
Definition branching_factor (self : WordAStar) (frames : nat)
  : result float :=
  match root self with
  | None => Raise AttributeError
  | Some r =>
      bfs ← node_bf self frames r;
      total ← float_of_int (sum bfs);
      count ← float_of_int (Z.of_nat (length bfs));
      float_div total count
  end.

(** * Notions the specification uses *)

(** ** Single-letter substitutions and the cost of a route *)

(** The word [w] with the letter at position [i] replaced by [a]. *)
Definition substitute (w : string) (i : nat) (a : ascii) : string :=
  join (<[i := a]> (chars w)).

(** [w'] is [w] after one single-letter substitution. *)
Definition substitution (w w' : string) : Prop :=
  exists (i : nat) (a : ascii), (i < len w)%nat /\ w' = substitute w i a.

(** [path] lists the words reached after each step of a sequence of steps
    that leads from [w] to [g]; its length is the number of steps. *)
Fixpoint transforms (step : string -> string -> Prop) (w : string)
    (path : list string) (g : string) : Prop :=
  match path with
  | [] => w = g
  | w' :: rest => step w w' /\ transforms step w' rest g
  end.

(** One move of the search: a successor of [s] with its cost, as
    [successors] pairs them. *)
Definition move (self : WordAStar) (s : WordState) (sc : WordState * Z)
  : Prop :=
  exists succs costs,
    successors self s = Ok (succs, costs) /\ sc ∈ zip succs costs.

(** A route of the search from [s] to [goal], as the moves taken. *)
Fixpoint route (self : WordAStar) (s : WordState)
    (moves : list (WordState * Z)) (goal : WordState) : Prop :=
  match moves with
  | [] => s = goal
  | sc :: rest => move self s sc /\ route self (fst sc) rest goal
  end.

Definition route_cost (moves : list (WordState * Z)) : Z :=
  sum (map snd moves).

(** The number of positions at which two words differ. *)
Fixpoint hamming (a b : list ascii) : Z :=
  match a, b with
  | x :: a', y :: b' => int_of_bool (char_ne x y) + hamming a' b'
  | _, _ => 0
  end.

(** ** Successors in the order the specification gives *)

(** The substitutions tried on a word of length [n]: positions from left to
    right and, at one position, the letters of the alphabet in order. *)
Definition candidates (n : nat) : list (nat * ascii) :=
  flat_map (fun i => map (fun a => (i, a)) ALPHABET) (range n).

(** The word a substitution gives, and the successor state holding it. *)
Definition key_word (w : string) (k : nat * ascii) : string :=
  substitute w (fst k) (snd k).

Definition key_state (w : string) (k : nat * ascii) : WordState :=
  mkWordState (key_word w k).

Definition key_in (d : gset string) (w : string) (k : nat * ascii) : Prop :=
  key_word w k ∈ d.

#[global] Instance key_in_dec (d : gset string) (w : string)
    (k : nat * ascii) : Decision (key_in d w k).
Proof. unfold key_in. apply _. Defined.

(** Those that give a word of the dictionary. *)
Definition successor_keys (d : gset string) (w : string)
  : list (nat * ascii) :=
  filter (key_in d w) (candidates (len w)).

(** Position first, then the letter. *)
Definition key_lt (k1 k2 : nat * ascii) : Prop :=
  (fst k1 < fst k2)%nat \/
  (fst k1 = fst k2 /\ (nat_of_ascii (snd k1) < nat_of_ascii (snd k2))%nat).

(** ** Expansion trees *)

(** Every node of the tree, the root first. *)
Fixpoint all_nodes (n : AStarNode) : list AStarNode :=
  match n with
  | mkNode _ _ _ _ cs => n :: flat_map all_nodes cs
  end.

Definition children_count (n : AStarNode) : Z :=
  Z.of_nat (length (children n)).

(** The children counts of exactly the nodes whose [expanded] flag is
    true. *)
Definition expanded_counts (t : AStarNode) : list Z :=
  map children_count (filter (fun n => expanded n = true) (all_nodes t)).

(** The root, and the nodes reached from it through children whose
    [expanded] flag is true. *)
Fixpoint reached (n : AStarNode) : list AStarNode :=
  match n with
  | mkNode _ _ _ _ cs =>
      n :: flat_map (fun c => if expanded c then reached c else []) cs
  end.

(** The arithmetic mean of a list of integers as Python computes it in
    floats, [float(sum(l)) / len(l)]; there is none of the empty list. *)
Definition float_mean (l : list Z) : result float :=
  total ← float_of_int (sum l);
  count ← float_of_int (Z.of_nat (length l));
  float_div total count.

(** The number of nodes on the longest chain that starts at the root and
    goes on through children whose [expanded] flag is true. *)
Fixpoint reached_depth (n : AStarNode) : nat :=
  match n with
  | mkNode _ _ _ _ cs =>
      S (fold_right
           (fun c deepest =>
              Nat.max (if expanded c then reached_depth c else 0%nat) deepest)
           0%nat cs)
  end.

(** The trees the search builds when it expands the root: only an expanded
    node has children. *)
Definition expansion_closed (t : AStarNode) : bool :=
  expanded t &&
  forallb (fun n => expanded n || (length (children n) =? 0)%nat)
          (all_nodes t).

(** ** The visited ledger *)

Inductive ledger_call : Type :=
  | Visit (state : WordState) (node : AStarNode)
  | ClearVisited.

Definition call (self : WordAStar) (c : ledger_call) : WordAStar :=
  match c with
  | Visit state node => visit self state node
  | ClearVisited => clear_visited self
  end.

(** The object after a sequence of calls, the first call first. *)
Definition calls (self : WordAStar) (cs : list ledger_call) : WordAStar :=
  fold_left call cs self.

(** The node most recently registered for the word [w] by calls listed the
    most recent first, none once a [clear_visited] is met; [before] is the
    ledger the calls started from. *)
Fixpoint most_recent (before : gmap string AStarNode)
    (recent_first : list ledger_call) (w : string) : option AStarNode :=
  match recent_first with
  | [] => before !! w
  | Visit state node :: earlier =>
      if decide (word state = w) then Some node
      else most_recent before earlier w
  | ClearVisited :: _ => None
  end.

(** ** The edit distance *)

(** The recurrence of the edit distance on the last letters of two words,
    each given with its last letter first: the distance to the empty word
    is the length, and otherwise the least of an insertion, a deletion and
    a substitution, the last one free for equal letters. *)
Fixpoint edit_distance (a : list ascii) : list ascii -> Z :=
  match a with
  | [] => fun b => Z.of_nat (length b)
  | x :: a' =>
      fix against (b : list ascii) : Z :=
        match b with
        | [] => Z.of_nat (S (length a'))
        | y :: b' =>
            min3 (edit_distance a' b + 1) (against b' + 1)
                 (edit_distance a' b' + int_of_bool (char_ne x y))
        end
  end.

(** Two lists of letters that are equal but for the letter at one
    position, which may differ. *)
Inductive one_changed : list ascii -> list ascii -> Prop :=
  | changed_here (x x' : ascii) (l : list ascii) :
      one_changed (x :: l) (x' :: l)
  | changed_later (x : ascii) (l l' : list ascii) :
      one_changed l l' -> one_changed (x :: l) (x :: l').

(** * Concrete inputs *)

Definition newline : string := String (ascii_of_nat 10) EmptyString.

(** A dictionary file of three lines, not yet opened. *)
Definition small_world : World :=
  mkWorld {[DICT_FILENAME :=
              [String.append "Cat" newline; String.append " dog" newline;
               String.append "horse" newline]]}
          [].

(** A parent constructor that only creates the root node. *)
Definition root_only (self : WordAStar) (state : WordState) : M WordAStar :=
  mret (mkWordAStar (sw self) (gw self) (dictionary self) (visited self)
                    (heuristicType self)
                    (Some (mkNode state 0 0 false []))).

(** A search object whose root is [t]. *)
Definition with_root (t : AStarNode) : WordAStar :=
  mkWordAStar "cat" "cot" ∅ ∅ 0 (Some t).

(** A node that was generated and never expanded. *)
Definition leaf (w : string) : AStarNode :=
  mkNode (mkWordState w) 1 0 false [].

(** The tree of a search whose start word is the goal word: the root is
    popped as the goal and never expanded. *)
Definition goal_root : AStarNode :=
  mkNode (mkWordState "cat") 0 0 false [].

(** A root whose flag is false above an expanded child with three
    children. *)
Definition unexpanded_root : AStarNode :=
  mkNode (mkWordState "cat") 0 0 false
    [mkNode (mkWordState "cot") 1 0 true [leaf "dot"; leaf "cog"; leaf "cut"]].

(** An expanded root with an expanded child and a leaf. *)
Definition small_tree : AStarNode :=
  mkNode (mkWordState "cat") 0 0 true
    [mkNode (mkWordState "cot") 1 0 true [leaf "dot"; leaf "cog"];
     leaf "cut"].

(** * Checks on concrete inputs *)

Example levenshtein_kitten :
  levenshtein "kitten" "sitting" = Ok 3.
Proof. reflexivity. Qed.

Example levenshtein_mare_colt :
  levenshtein "mare" "colt" = Ok 4.
Proof. reflexivity. Qed.

Example str_negative : str (-5) = "-5"%string.
Proof. reflexivity. Qed.

(** * Basic facts about the built-ins *)

Lemma len_chars (s : string) : length (chars s) = len s.
Proof.
  unfold chars, len. induction s as [|c s IH]; simpl; [reflexivity|].
  now rewrite IH.
Qed.

Lemma chars_join (l : list ascii) : chars (join l) = l.
Proof. apply list_ascii_of_string_of_list_ascii. Qed.

Lemma join_chars (s : string) : join (chars s) = s.
Proof. apply string_of_list_ascii_of_string. Qed.

Lemma len_join (l : list ascii) : len (join l) = length l.
Proof. now rewrite <- len_chars, chars_join. Qed.

Lemma getitem_lookup {A : Type} (l : list A) (i : nat) (x : A) :
  l !! i = Some x -> getitem l i = Ok x.
Proof. unfold getitem. now intros ->. Qed.

Lemma getitem_lt {A : Type} (l : list A) (i : nat) :
  (i < length l)%nat -> exists x, l !! i = Some x /\ getitem l i = Ok x.
Proof.
  intros Hi. destruct (lookup_lt_is_Some_2 l i Hi) as [x Hx].
  exists x. split; [exact Hx | now apply getitem_lookup].
Qed.

Lemma min3_nonneg (a b c : Z) : 0 <= a -> 0 <= b -> 0 <= c -> 0 <= min3 a b c.
Proof. unfold min3. lia. Qed.

Lemma min3_le_third (a b c : Z) : min3 a b c <= c.
Proof. unfold min3. lia. Qed.

Lemma int_of_bool_range (b : bool) : 0 <= int_of_bool b <= 1.
Proof. destruct b; simpl; lia. Qed.

(** * levenshtein: the rows it computes *)

(** The inner loop extends the current row by one entry per character of
    [s2]; no index leaves its list, the entries stay non-negative, and the
    entry under column [j] is at most the entry of the previous row to its
    upper left plus the substitution cost. *)
Lemma levenshtein_inner_loop (c1 : ascii) (prev : list Z) (cs : list ascii) :
  forall (k : nat) (cur : list Z),
    length cur = S k ->
    (k + length cs < length prev)%nat ->
    exists ext,
      foldM (levenshtein_inner c1 prev) (enumerate_from k cs) cur
        = Ok (cur ++ ext)
      /\ length ext = length cs
      /\ (Forall (Z.le 0) prev -> Forall (Z.le 0) cur -> Forall (Z.le 0) ext)
      /\ (forall j c2 p0,
             cs !! j = Some c2 -> prev !! (k + j)%nat = Some p0 ->
             exists v, ext !! j = Some v
                       /\ v <= p0 + int_of_bool (char_ne c1 c2)).
Proof.
  induction cs as [|c2 cs IH]; intros k cur Hcur Hprev.
  - exists []. simpl. rewrite app_nil_r. repeat split; auto.
    intros j c p0 Hj. discriminate.
  - simpl in Hprev. simpl.
    destruct (getitem_lt prev (k + 1)) as (p1 & Hp1 & Gp1); [lia|].
    destruct (getitem_lt cur k) as (cj & Hcj & Gcj); [lia|].
    destruct (getitem_lt prev k) as (p0 & Hp0 & Gp0); [lia|].
    rewrite Gp1. simpl. rewrite Gcj. simpl. rewrite Gp0. simpl.
    set (v := min3 (p1 + 1) (cj + 1) (p0 + int_of_bool (char_ne c1 c2))).
    destruct (IH (S k) (cur ++ [v])) as (ext & Hrun & Hlen & Hpos & Hdiag).
    { rewrite length_app. simpl. lia. }
    { lia. }
    exists (v :: ext). rewrite Hrun, <- app_assoc. simpl.
    split; [reflexivity|]. split; [now rewrite Hlen|]. split.
    + intros Fprev Fcur.
      assert (0 <= v) as Hv.
      { rewrite Forall_lookup in Fprev, Fcur.
        pose proof (Fprev _ _ Hp1). pose proof (Fprev _ _ Hp0).
        pose proof (Fcur _ _ Hcj).
        pose proof (int_of_bool_range (char_ne c1 c2)).
        apply min3_nonneg; lia. }
      constructor; [exact Hv|]. apply Hpos; [exact Fprev|].
      apply Forall_app. split; [exact Fcur|]. now constructor.
    + intros j c p Hj Hp. destruct j as [|j]; simpl in Hj.
      * injection Hj as <-. rewrite Nat.add_0_r, Hp0 in Hp.
        injection Hp as <-. exists v. split; [reflexivity|].
        apply min3_le_third.
      * simpl. apply (Hdiag j c p Hj).
        now replace (S k + j)%nat with (k + S j)%nat by lia.
Qed.

Lemma hamming_nonneg (a b : list ascii) : 0 <= hamming a b.
Proof.
  revert b. induction a as [|x a IH]; intros [|y b]; simpl; try lia.
  pose proof (IH b). pose proof (int_of_bool_range (char_ne x y)). lia.
Qed.

(** The outer loop replaces the row once per character of [s1]; the rows
    keep their length and stay non-negative, and along the diagonal they
    are bounded by the number of differing positions met so far. *)
Lemma levenshtein_outer_loop (s2 : string) (cs1 : list ascii) :
  forall (k : nat) (prev : list Z),
    length prev = S (len s2) ->
    Forall (Z.le 0) prev ->
    exists row,
      foldM (levenshtein_outer s2) (enumerate_from k cs1) prev = Ok row
      /\ length row = S (len s2)
      /\ Forall (Z.le 0) row
      /\ (forall d, (k + length cs1 <= len s2)%nat -> prev !! k = Some d ->
            exists d', row !! (k + length cs1)%nat = Some d'
                       /\ d' <= d + hamming cs1 (drop k (chars s2))).
Proof.
  induction cs1 as [|c1 cs1 IH]; intros k prev Hlen Hpos.
  - exists prev. simpl. repeat split; auto.
    intros d _ Hd. exists d. rewrite Nat.add_0_r. split; [exact Hd|lia].
  - simpl. unfold enumerate.
    destruct (levenshtein_inner_loop c1 prev (chars s2) 0 [Z.of_nat k + 1])
      as (ext & Hrun & Hext & Hnn & Hdiag).
    { reflexivity. }
    { rewrite len_chars. lia. }
    rewrite Hrun. simpl.
    destruct (IH (S k) (Z.of_nat k + 1 :: ext)) as (row & Hrow & Hl & Hp & Hd).
    { simpl. now rewrite Hext, len_chars. }
    { constructor; [lia|]. apply Hnn; [exact Hpos|]. constructor; [lia|constructor]. }
    exists row. split; [exact Hrow|]. split; [exact Hl|]. split; [exact Hp|].
    intros d Hk Hpk.
    destruct (lookup_lt_is_Some_2 (chars s2) k) as [c2 Hc2].
    { rewrite len_chars. lia. }
    destruct (Hdiag k c2 d Hc2 Hpk) as (v & Hv & Hle).
    destruct (Hd v) as (d' & Hd' & Hle'); [lia | exact Hv |].
    exists d'. replace (k + S (length cs1))%nat with (S k + length cs1)%nat by lia.
    split; [exact Hd'|].
    rewrite (drop_S _ _ _ Hc2). simpl. lia.
Qed.

Lemma range_Z_length (n : nat) : length (range_Z n) = n.
Proof. unfold range_Z, range. now rewrite length_map, length_seq. Qed.

Lemma range_Z_nonneg (n : nat) : Forall (Z.le 0) (range_Z n).
Proof.
  unfold range_Z. apply Forall_forall. intros x Hx.
  apply list_elem_of_In, in_map_iff in Hx. destruct Hx as (i & <- & _). lia.
Qed.

(** Past the swap, [levenshtein] returns a non-negative integer, and for
    words of one length at most the number of positions where they
    differ. *)
Lemma levenshtein_rows_spec (s1 s2 : string) :
  exists v,
    levenshtein_rows s1 s2 = Ok v /\ 0 <= v
    /\ (len s1 = len s2 -> v <= hamming (chars s1) (chars s2)).
Proof.
  unfold levenshtein_rows. destruct (decide (len s2 = 0%nat)) as [Hz|Hnz].
  - exists (Z.of_nat (len s1)). split; [reflexivity|]. split; [lia|].
    intros Heq. pose proof (hamming_nonneg (chars s1) (chars s2)). lia.
  - destruct (levenshtein_outer_loop s2 (chars s1) 0 (range_Z (len s2 + 1)))
      as (row & Hrow & Hlen & Hpos & Hdiag).
    { rewrite range_Z_length. lia. }
    { apply range_Z_nonneg. }
    unfold enumerate. rewrite Hrow. simpl.
    unfold getitem_last. rewrite last_lookup, Hlen. simpl.
    destruct (lookup_lt_is_Some_2 row (len s2)) as [v Hv]; [lia|].
    rewrite Hv. exists v. split; [reflexivity|]. split.
    + rewrite Forall_lookup in Hpos. exact (Hpos _ _ Hv).
    + intros Heq. destruct (Hdiag 0) as (d' & Hd' & Hle).
      { rewrite len_chars. lia. }
      { unfold range_Z, range. now replace (len s2 + 1)%nat with (S (len s2)) by lia. }
      simpl in Hd'. rewrite len_chars, Heq, Hv in Hd'. injection Hd' as <-.
      rewrite drop_0 in Hle. lia.
Qed.

(** [levenshtein] never raises and returns a non-negative integer; for two
    words of equal length the result is at most the number of positions at
    which they differ. *)
Lemma levenshtein_spec (s1 s2 : string) :
  exists v,
    levenshtein s1 s2 = Ok v /\ 0 <= v
    /\ (len s1 = len s2 -> v <= hamming (chars s1) (chars s2)).
Proof.
  unfold levenshtein. destruct (decide (len s1 < len s2)%nat) as [Hlt|Hge].
  - destruct (levenshtein_rows_spec s2 s1) as (v & Hv & Hpos & _).
    exists v. split; [exact Hv|]. split; [exact Hpos|]. lia.
  - apply levenshtein_rows_spec.
Qed.

(** * Differing positions *)

Lemma char_ne_refl (x : ascii) : char_ne x x = false.
Proof. unfold char_ne. now rewrite Ascii.eqb_refl. Qed.

Lemma char_ne_triangle (x y z : ascii) :
  int_of_bool (char_ne x z)
  <= int_of_bool (char_ne x y) + int_of_bool (char_ne y z).
Proof.
  unfold char_ne.
  destruct (Ascii.eqb_spec x y) as [->|Hxy];
    destruct (Ascii.eqb_spec y z) as [->|Hyz]; simpl;
    try lia; destruct (Ascii.eqb x z); simpl; lia.
Qed.

Lemma hamming_refl (a : list ascii) : hamming a a = 0.
Proof.
  induction a as [|x a IH]; simpl; [reflexivity|].
  now rewrite char_ne_refl, IH.
Qed.

Lemma hamming_triangle (a : list ascii) :
  forall b c : list ascii,
    length a = length b -> length b = length c ->
    hamming a c <= hamming a b + hamming b c.
Proof.
  induction a as [|x a IH]; intros [|y b] [|z c] Hab Hbc;
    simpl in *; try lia.
  pose proof (IH b c ltac:(lia) ltac:(lia)).
  pose proof (char_ne_triangle x y z). lia.
Qed.

Lemma hamming_insert (l : list ascii) :
  forall (i : nat) (a : ascii), hamming l (<[i := a]> l) <= 1.
Proof.
  induction l as [|x l IH]; intros i a; simpl; [lia|].
  destruct i as [|i]; simpl.
  - rewrite hamming_refl.
    pose proof (int_of_bool_range (char_ne x a)). lia.
  - rewrite char_ne_refl. simpl. apply IH.
Qed.

Lemma len_substitute (w : string) (i : nat) (a : ascii) :
  len (substitute w i a) = len w.
Proof. unfold substitute. now rewrite len_join, length_insert, len_chars. Qed.

Lemma hamming_substitute (w : string) (i : nat) (a : ascii) :
  hamming (chars w) (chars (substitute w i a)) <= 1.
Proof. unfold substitute. rewrite chars_join. apply hamming_insert. Qed.

(** A sequence of single-letter substitutions keeps the length of the word
    and changes at most one position per step. *)
Lemma transforms_hamming (path : list string) :
  forall w g : string,
    transforms substitution w path g ->
    len g = len w
    /\ hamming (chars w) (chars g) <= Z.of_nat (length path).
Proof.
  induction path as [|w' path IH]; intros w g H; simpl in H.
  - subst g. rewrite hamming_refl. simpl. lia.
  - destruct H as [(i & a & Hi & ->) Hrest].
    destruct (IH _ _ Hrest) as [Hlen Hham].
    rewrite len_substitute in Hlen. split; [exact Hlen|].
    pose proof (hamming_substitute w i a) as H1.
    pose proof (hamming_triangle (chars w) (chars (substitute w i a)) (chars g)) as Ht.
    rewrite !len_chars, len_substitute in Ht.
    specialize (Ht eq_refl (eq_sym Hlen)).
    simpl length. lia.
Qed.

(** * successors: the loops *)

Section SuccessorsLoops.

Variable self : WordAStar.

(** The inner loop at position [i], where [sub a] is the word with the
    letter [a] at position [i]: each letter that gives a dictionary word
    adds that word and the cost 1, in the order of the letters. *)
Lemma successors_inner_loop (i : nat) (sub : ascii -> string)
    (letters : list ascii) :
  forall (wl : list ascii) (sl : list WordState) (cl : list Z),
    (i < length wl)%nat ->
    (forall a, join (<[i := a]> wl) = sub a) ->
    exists wl',
      foldM (successors_inner self i) letters (wl, (sl, cl))
      = Ok (wl',
            (sl ++ map (fun a => mkWordState (sub a))
                       (filter (fun a => sub a ∈ dictionary self) letters),
             cl ++ map (fun _ => 1)
                       (filter (fun a => sub a ∈ dictionary self) letters))).
Proof.
  induction letters as [|a letters IH]; intros wl sl cl Hi Hsub.
  - exists wl. simpl. now rewrite !app_nil_r.
  - simpl. unfold setitem. destruct (decide (i < length wl)%nat); [|lia].
    simpl. rewrite Hsub, filter_cons.
    assert (forall b, join (<[i := b]> (<[i := a]> wl)) = sub b) as Hsub'.
    { intros b. now rewrite list_insert_insert_eq. }
    assert (i < length (<[i := a]> wl))%nat as Hi'.
    { now rewrite length_insert. }
    destruct (decide (sub a ∈ dictionary self)) as [Hin|Hout]; simpl.
    + destruct (IH _ (sl ++ [mkWordState (sub a)]) (cl ++ [1]) Hi' Hsub')
        as (wl' & ->).
      exists wl'. simpl. now rewrite <- !app_assoc.
    + destruct (IH _ sl cl Hi' Hsub') as (wl' & ->).
      now exists wl'.
Qed.

Variable state : WordState.

Lemma filter_row (i : nat) (letters : list ascii) :
  filter (key_in (dictionary self) (word state)) (map (fun a => (i, a)) letters)
  = map (fun a => (i, a))
        (filter (fun a => substitute (word state) i a ∈ dictionary self)
                letters).
Proof.
  induction letters as [|a letters IH]; [reflexivity|].
  simpl. rewrite !filter_cons, IH.
  destruct (decide (key_in (dictionary self) (word state) (i, a)));
    destruct (decide (substitute (word state) i a ∈ dictionary self));
    try reflexivity; contradiction.
Qed.

(** One round of the outer loop, at a position inside the word. *)
Lemma successors_outer_step (i : nat) (sl : list WordState) (cl : list Z) :
  (i < len (word state))%nat ->
  successors_outer self state (sl, cl) i
  = Ok (sl ++ map (key_state (word state))
                  (filter (key_in (dictionary self) (word state)) (map (fun a => (i, a)) ALPHABET)),
        cl ++ map (fun _ => 1)
                  (filter (key_in (dictionary self) (word state)) (map (fun a => (i, a)) ALPHABET))).
Proof.
  intros Hi. rewrite filter_row, !map_map. unfold successors_outer.
  destruct (successors_inner_loop i (substitute (word state) i) ALPHABET
              (chars (word state)) sl cl) as (wl' & ->).
  { now rewrite len_chars. }
  { reflexivity. }
  reflexivity.
Qed.

Lemma successors_outer_loop (positions : list nat) :
  forall (sl : list WordState) (cl : list Z),
    Forall (fun i => (i < len (word state))%nat) positions ->
    foldM (successors_outer self state) positions (sl, cl)
    = Ok (sl ++ map (key_state (word state))
                    (filter (key_in (dictionary self) (word state))
                       (flat_map (fun i => map (fun a => (i, a)) ALPHABET)
                                 positions)),
          cl ++ map (fun _ => 1)
                    (filter (key_in (dictionary self) (word state))
                       (flat_map (fun i => map (fun a => (i, a)) ALPHABET)
                                 positions))).
Proof.
  induction positions as [|i positions IH]; intros sl cl Hall.
  - simpl. now rewrite !app_nil_r.
  - apply Forall_cons in Hall. destruct Hall as [Hi Hall].
    cbn [foldM flat_map]. rewrite (successors_outer_step i sl cl Hi).
    cbn [mbind result_bind].
    rewrite (IH _ _ Hall), filter_app, !map_app, <- !app_assoc.
    reflexivity.
Qed.

(** [successors] never raises; it returns the words of the successful
    substitutions, in the order they are tried, each with the cost 1. *)
Lemma successors_keys :
  successors self state
  = Ok (map (key_state (word state)) (successor_keys (dictionary self) (word state)),
        map (fun _ => 1)
            (successor_keys (dictionary self) (word state))).
Proof.
  unfold successors. rewrite successors_outer_loop; [reflexivity|].
  apply Forall_forall. intros i Hi.
  apply list_elem_of_In, in_seq in Hi. lia.
Qed.

End SuccessorsLoops.

(** * successors: what the keys say *)

Lemma elem_of_ALPHABET (a : ascii) :
  a ∈ ALPHABET <-> (97 <= nat_of_ascii a <= 122)%nat.
Proof.
  unfold ALPHABET, range. rewrite list_elem_of_In, in_map_iff. split.
  - intros (i & <- & Hi). apply in_seq in Hi.
    rewrite nat_ascii_embedding; lia.
  - intros Ha. exists (nat_of_ascii a - 97)%nat. split.
    + replace (nat_of_ascii a - 97 + 97)%nat with (nat_of_ascii a) by lia.
      apply ascii_nat_embedding.
    + apply in_seq. lia.
Qed.

Lemma elem_of_candidates (n : nat) (k : nat * ascii) :
  k ∈ candidates n <-> (fst k < n)%nat /\ snd k ∈ ALPHABET.
Proof.
  unfold candidates, range. rewrite list_elem_of_In, in_flat_map. split.
  - intros (i & Hi & Hk). apply in_seq in Hi.
    apply in_map_iff in Hk. destruct Hk as (a & <- & Ha). simpl.
    split; [lia | now apply list_elem_of_In].
  - intros [Hi Ha]. exists (fst k). split; [apply in_seq; lia|].
    apply in_map_iff. exists (snd k). split; [now destruct k|].
    now apply list_elem_of_In.
Qed.

Lemma elem_of_successor_keys (d : gset string) (w : string)
    (k : nat * ascii) :
  k ∈ successor_keys d w
  <-> (fst k < len w)%nat /\ snd k ∈ ALPHABET /\ key_word w k ∈ d.
Proof.
  unfold successor_keys. rewrite list_elem_of_filter, elem_of_candidates.
  unfold key_in. tauto.
Qed.

Lemma zip_map_map {A B C : Type} (f : A -> B) (g : A -> C) (l : list A) :
  zip (map f l) (map g l) = map (fun x => (f x, g x)) l.
Proof. induction l as [|x l IH]; simpl; [reflexivity | now rewrite IH]. Qed.

(** Every move replaces one letter of the word by a letter of the alphabet,
    lands on a dictionary word, and costs 1. *)
Lemma move_inv (self : WordAStar) (s : WordState) (sc : WordState * Z) :
  move self s sc ->
  exists k,
    k ∈ successor_keys (dictionary self) (word s)
    /\ fst sc = key_state (word s) k /\ snd sc = 1.
Proof.
  intros (succs & costs & Hs & Hin).
  rewrite successors_keys in Hs. injection Hs as <- <-.
  rewrite zip_map_map in Hin.
  apply list_elem_of_In, in_map_iff in Hin. destruct Hin as (k & <- & Hk).
  exists k. split; [now apply list_elem_of_In | now split].
Qed.

Lemma sum_from (l : list Z) :
  forall a : Z, fold_left Z.add l a = a + sum l.
Proof.
  unfold sum. induction l as [|x l IH]; intros a; [simpl; lia|].
  cbn [fold_left]. rewrite (IH (a + x)), (IH (0 + x)). lia.
Qed.

Lemma sum_cons (x : Z) (l : list Z) : sum (x :: l) = x + sum l.
Proof. unfold sum at 1. cbn [fold_left]. rewrite sum_from. lia. Qed.

(** A route of the search is a sequence of single-letter substitutions with
    one step per move, and its cost is the number of its moves. *)
Lemma route_transforms (self : WordAStar) (moves : list (WordState * Z)) :
  forall s goal : WordState,
    route self s moves goal ->
    transforms substitution (word s) (map (fun sc => word (fst sc)) moves)
               (word goal)
    /\ route_cost moves = Z.of_nat (length moves).
Proof.
  unfold route_cost.
  induction moves as [|sc moves IH]; intros s goal H; simpl in H.
  - subst goal. now split.
  - destruct H as [Hmove Hrest].
    destruct (move_inv _ _ _ Hmove) as (k & Hk & Hfst & Hsnd).
    destruct (IH _ _ Hrest) as [Htr Hcost].
    apply elem_of_successor_keys in Hk. destruct Hk as (Hi & _ & _).
    split.
    + simpl. split; [|exact Htr].
      exists (fst k), (snd k). split; [exact Hi|]. now rewrite Hfst.
    + simpl map. rewrite sum_cons, Hcost, Hsnd. simpl length. lia.
Qed.

(** * The heuristic *)

(** C1. The custom heuristic is admissible: for two words of equal length
    and every sequence of single-letter substitutions that turns the word
    of the state into the goal word, each step of cost 1,
    [levenshtein] returns at most the number of steps, so
    [heuristic_custom] never overestimates the remaining cost. *)
Theorem heuristic_custom_admissible (self : WordAStar) (state : WordState)
    (path : list string) :
  len (word state) = len (gw self) ->
  transforms substitution (word state) path (gw self) ->
  exists v,
    levenshtein (word state) (gw self) = Ok v
    /\ heuristic_custom self state = Ok v
    /\ v <= Z.of_nat (length path).
Proof.
  intros Hlen Hpath.
  destruct (levenshtein_spec (word state) (gw self)) as (v & Hv & _ & Hle).
  destruct (transforms_hamming _ _ _ Hpath) as [_ Hham].
  exists v. split; [exact Hv|]. split; [exact Hv|].
  specialize (Hle Hlen). lia.
Qed.

Lemma heuristic_custom_admissible_witness :
  exists v,
    levenshtein "mare" "colt" = Ok v
    /\ heuristic_custom (mkWordAStar "mare" "colt" ∅ ∅ 1 None)
                        (mkWordState "mare") = Ok v
    /\ v <= 4.
Proof.
  apply (heuristic_custom_admissible
           (mkWordAStar "mare" "colt" ∅ ∅ 1 None) (mkWordState "mare")
           ["more"; "mole"; "molt"; "colt"]%string).
  - reflexivity.
  - simpl. repeat split.
    + exists 1%nat, "o"%char. split; [simpl; lia | reflexivity].
    + exists 2%nat, "l"%char. split; [simpl; lia | reflexivity].
    + exists 3%nat, "t"%char. split; [simpl; lia | reflexivity].
    + exists 0%nat, "c"%char. split; [simpl; lia | reflexivity].
Defined.

(** The same bound along the routes of the search itself: the heuristic
    value of a state is at most the cost of any route that [successors]
    offers from it to the goal word. *)
Lemma heuristic_custom_route_bound (self : WordAStar) (state : WordState)
    (moves : list (WordState * Z)) :
  route self state moves (mkWordState (gw self)) ->
  exists v,
    heuristic_custom self state = Ok v /\ 0 <= v /\ v <= route_cost moves.
Proof.
  intros Hroute.
  destruct (route_transforms _ _ _ _ Hroute) as [Htr Hcost].
  destruct (transforms_hamming _ _ _ Htr) as [Hlen Hham]. simpl in Hlen.
  destruct (levenshtein_spec (word state) (gw self)) as (v & Hv & Hpos & Hle).
  exists v. split; [exact Hv|]. split; [exact Hpos|].
  specialize (Hle (eq_sym Hlen)). rewrite length_map in Hham. simpl in Hham.
  lia.
Qed.

(** C7. [heuristic] returns a non-negative number under the heuristic types
    0 and 1, exactly 0 for every state under type 0, and raises an error
    under any other type. *)
Theorem heuristic_by_type (self : WordAStar) (state : WordState) :
  (heuristicType self = 0 -> heuristic self state = Ok 0)
  /\ (heuristicType self = 1 ->
      exists v, heuristic self state = Ok v /\ 0 <= v)
  /\ (heuristicType self <> 0 -> heuristicType self <> 1 ->
      exists msg, heuristic self state = Raise (RuntimeError msg)).
Proof.
  unfold heuristic. split; [|split].
  - intros H0. now destruct (decide (heuristicType self = 0)).
  - intros H1. destruct (decide (heuristicType self = 0)); [lia|].
    destruct (decide (heuristicType self = 1)); [|lia].
    unfold heuristic_custom.
    destruct (levenshtein_spec (word state) (gw self)) as (v & Hv & Hpos & _).
    now exists v.
  - intros H0 H1. destruct (decide (heuristicType self = 0)); [lia|].
    destruct (decide (heuristicType self = 1)); [lia|]. eauto.
Qed.

Lemma heuristic_by_type_witness :
  heuristic (mkWordAStar "mare" "colt" ∅ ∅ 0 None) (mkWordState "more")
  = Ok 0
  /\ (exists v,
        heuristic (mkWordAStar "mare" "colt" ∅ ∅ 1 None) (mkWordState "more")
        = Ok v /\ 0 <= v)
  /\ (exists msg,
        heuristic (mkWordAStar "mare" "colt" ∅ ∅ 2 None) (mkWordState "more")
        = Raise (RuntimeError msg)).
Proof.
  split; [|split].
  - apply (heuristic_by_type (mkWordAStar "mare" "colt" ∅ ∅ 0 None)).
    reflexivity.
  - apply (heuristic_by_type (mkWordAStar "mare" "colt" ∅ ∅ 1 None)).
    reflexivity.
  - apply (heuristic_by_type (mkWordAStar "mare" "colt" ∅ ∅ 2 None));
      simpl; lia.
Defined.

(** * successors: the properties of the result *)

Lemma successor_keys_empty (w : string) : successor_keys ∅ w = [].
Proof.
  apply elem_of_nil_inv. intros k Hk.
  apply elem_of_successor_keys in Hk. destruct Hk as (_ & _ & Hin).
  now apply not_elem_of_empty in Hin.
Qed.

(** C5. [successors] returns a list of successors and a list of costs of
    the same length, every cost is 1 and so non-negative, and the pair of
    empty lists is a possible result: with no word in the dictionary the
    state is a dead end. *)
Theorem successors_costs (self : WordAStar) (state : WordState) :
  (exists succs costs,
      successors self state = Ok (succs, costs)
      /\ length succs = length costs
      /\ Forall (fun c => c = 1 /\ 0 <= c) costs)
  /\ successors (mkWordAStar (sw self) (gw self) ∅ (visited self)
                             (heuristicType self) (root self)) state
     = Ok ([], []).
Proof.
  split.
  - eexists _, _. split; [apply successors_keys|].
    split; [now rewrite !length_map|].
    apply Forall_forall. intros c Hc.
    apply list_elem_of_In, in_map_iff in Hc. destruct Hc as (k & <- & _). lia.
  - rewrite successors_keys. simpl. now rewrite successor_keys_empty.
Qed.

(** Every successor holds a dictionary word of the length of the word of
    the state, which differs from it in at most one position. *)
Lemma successors_sound (self : WordAStar) (state : WordState)
    (succs : list WordState) (costs : list Z) (s : WordState) :
  successors self state = Ok (succs, costs) ->
  s ∈ succs ->
  len (word s) = len (word state)
  /\ word s ∈ dictionary self
  /\ substitution (word state) (word s)
  /\ hamming (chars (word state)) (chars (word s)) <= 1.
Proof.
  rewrite successors_keys. intros [= <- <-] Hs.
  apply list_elem_of_In, in_map_iff in Hs. destruct Hs as (k & <- & Hk).
  apply list_elem_of_In, elem_of_successor_keys in Hk.
  destruct Hk as (Hi & _ & Hin). simpl. unfold key_word in *.
  split; [apply len_substitute|]. split; [exact Hin|].
  split; [now exists (fst k), (snd k) | apply hamming_substitute].
Qed.

(** C4. The state of a dictionary word is its own successor, once per
    position: at each position the loop also tries the letter that is
    already there. *)
Theorem successors_of_dictionary_word :
  successors (mkWordAStar "cat" "dog" {["cat"]} ∅ 0 None) (mkWordState "cat")
  = Ok ([mkWordState "cat"; mkWordState "cat"; mkWordState "cat"],
        [1; 1; 1]).
Proof. vm_compute. reflexivity. Qed.

(** * successors: the order of the result *)

Lemma ALPHABET_letters : ALPHABET = chars "abcdefghijklmnopqrstuvwxyz".
Proof. reflexivity. Qed.

Lemma StronglySorted_filter {A : Type} (R : A -> A -> Prop) (P : A -> Prop)
    `{forall x, Decision (P x)} (l : list A) :
  StronglySorted R l -> StronglySorted R (filter P l).
Proof.
  induction 1 as [|x l Hl IH Hx]; [constructor|].
  rewrite filter_cons. destruct (decide (P x)); [|exact IH].
  constructor; [exact IH|].
  apply Forall_forall. intros y Hy. apply list_elem_of_filter in Hy.
  rewrite Forall_forall in Hx. now apply Hx.
Qed.

Lemma ALPHABET_sorted :
  StronglySorted (fun a b => (nat_of_ascii a < nat_of_ascii b)%nat) ALPHABET.
Proof. apply (bool_decide_unpack _). vm_compute. reflexivity. Qed.

Lemma StronglySorted_map {A B : Type} (R1 : A -> A -> Prop)
    (R2 : B -> B -> Prop) (f : A -> B) (l : list A) :
  (forall x y, R1 x y -> R2 (f x) (f y)) ->
  StronglySorted R1 l -> StronglySorted R2 (map f l).
Proof.
  intros Hf. induction 1 as [|x l Hl IH Hx]; simpl; constructor; [exact IH|].
  apply Forall_forall. intros y Hy.
  apply list_elem_of_In, in_map_iff in Hy. destruct Hy as (z & <- & Hz).
  rewrite Forall_forall in Hx. apply Hf, Hx. now apply list_elem_of_In.
Qed.

(** The substitutions are tried in increasing order of position and, at
    one position, of letter. *)
Lemma candidates_from_sorted (n : nat) :
  forall s : nat,
    StronglySorted key_lt
      (flat_map (fun i => map (fun a => (i, a)) ALPHABET) (seq s n)).
Proof.
  induction n as [|n IH]; intros s; cbn [seq flat_map]; [constructor|].
  apply StronglySorted_app_2.
  - intros k1 k2 H1 H2.
    apply list_elem_of_In, in_map_iff in H1. destruct H1 as (a & <- & _).
    apply list_elem_of_In, in_flat_map in H2. destruct H2 as (i & Hi & H2).
    apply in_seq in Hi. apply in_map_iff in H2. destruct H2 as (b & <- & _).
    left. simpl. lia.
  - apply (StronglySorted_map
             (fun a b => (nat_of_ascii a < nat_of_ascii b)%nat));
      [|apply ALPHABET_sorted].
    intros a b Hab. right. now split.
  - apply IH.
Qed.

Lemma successor_keys_sorted (d : gset string) (w : string) :
  StronglySorted key_lt (successor_keys d w).
Proof.
  unfold successor_keys, candidates, range.
  apply StronglySorted_filter, candidates_from_sorted.
Qed.

(** C9. [successors] is deterministic and its output order is fixed: two
    states that hold the same word, against the same dictionary, give the
    same pair of lists; the successors come in the order of the position
    substituted, from left to right, and at one position in the order of
    the letter put there, from a to z. *)
Theorem successors_deterministic_ordered (self1 self2 : WordAStar)
    (s1 s2 : WordState) :
  dictionary self1 = dictionary self2 ->
  word s1 = word s2 ->
  successors self1 s1 = successors self2 s2
  /\ ALPHABET = chars "abcdefghijklmnopqrstuvwxyz"
  /\ exists keys : list (nat * ascii),
       successors self1 s1
       = Ok (map (key_state (word s1)) keys, map (fun _ => 1) keys)
       /\ StronglySorted key_lt keys
       /\ (forall k, k ∈ keys <->
             (fst k < len (word s1))%nat /\ snd k ∈ ALPHABET
             /\ key_word (word s1) k ∈ dictionary self1).
Proof.
  intros Hd Hw. split; [|split].
  - rewrite !successors_keys. now rewrite Hd, Hw.
  - reflexivity.
  - exists (successor_keys (dictionary self1) (word s1)).
    split; [apply successors_keys|].
    split; [apply successor_keys_sorted|].
    intros k. apply elem_of_successor_keys.
Qed.

Lemma successors_deterministic_ordered_witness :
  successors (mkWordAStar "mare" "colt" {["more"; "mire"]} ∅ 0 None)
             (mkWordState "mare")
  = successors (mkWordAStar "mate" "colt" {["mire"; "more"]} ∅ 1 None)
               (mkWordState "mare")
  /\ successors (mkWordAStar "mare" "colt" {["more"; "mire"]} ∅ 0 None)
                (mkWordState "mare")
     = Ok ([mkWordState "mire"; mkWordState "more"], [1; 1]).
Proof.
  split.
  - apply (successors_deterministic_ordered
             (mkWordAStar "mare" "colt" {["more"; "mire"]} ∅ 0 None)
             (mkWordAStar "mate" "colt" {["mire"; "more"]} ∅ 1 None)
             (mkWordState "mare") (mkWordState "mare")).
    + vm_compute. reflexivity.
    + reflexivity.
  - vm_compute. reflexivity.
Defined.

(** * The visited ledger *)

Lemma visited_state_node_lookup (self : WordAStar) (state : WordState) :
  visited_state_node self state = Ok (visited self !! word state).
Proof.
  unfold visited_state_node, dict_getitem.
  destruct (decide (word state ∈ dom (visited self))) as [Hin|Hout].
  - apply elem_of_dom in Hin. destruct Hin as [node Hnode].
    rewrite Hnode. reflexivity.
  - apply not_elem_of_dom in Hout. now rewrite Hout.
Qed.

Lemma visited_calls_snoc (self : WordAStar) (cs : list ledger_call)
    (c : ledger_call) :
  calls self (cs ++ [c]) = call (calls self cs) c.
Proof. unfold calls. now rewrite fold_left_app. Qed.

(** The ledger after a sequence of calls holds, for each word, the node
    most recently registered for it. *)
Lemma visited_calls (self : WordAStar) (cs : list ledger_call) (w : string) :
  visited (calls self cs) !! w = most_recent (visited self) (rev cs) w.
Proof.
  induction cs as [|c cs IH] using rev_ind; [reflexivity|].
  rewrite visited_calls_snoc, rev_app_distr. simpl.
  destruct c as [state node|]; simpl.
  - destruct (decide (word state = w)) as [<-|Hne].
    + apply lookup_insert_eq.
    + rewrite lookup_insert_ne; [exact IH | exact Hne].
  - apply lookup_empty.
Qed.

(** C6. The visited ledger keeps at most one current node per state: after
    any sequence of [visit] and [clear_visited] calls, [visit] makes its node
    the entry of the word of its state, in the place of any earlier one and
    leaving the other words alone; [visited_state_node] returns the node
    most recently registered for the word, or [None] when there is none,
    and never raises. *)
Theorem visited_ledger (self : WordAStar) (cs : list ledger_call)
    (state other : WordState) (node : AStarNode) :
  visited_state_node (visit (calls self cs) state node) state
  = Ok (Some node)
  /\ visited_state_node (visit (calls self cs) state node) other
     = (if decide (word state = word other) then Ok (Some node)
        else visited_state_node (calls self cs) other)
  /\ visited_state_node (calls self cs) state
     = Ok (most_recent (visited self) (rev cs) (word state))
  /\ visited_state_node (clear_visited (calls self cs)) state = Ok None
  /\ exists r, visited_state_node self state = Ok r.
Proof.
  rewrite !visited_state_node_lookup. simpl.
  split; [now rewrite lookup_insert_eq|]. split.
  - destruct (decide (word state = word other)) as [->|Hne].
    + now rewrite lookup_insert_eq.
    + now rewrite lookup_insert_ne.
  - split; [now rewrite visited_calls|].
    split; [now rewrite lookup_empty | eauto].
Qed.

(** * The constructor *)

(** C8. Constructing a [WordAStar] with a start word and a goal word of
    different lengths raises the error at once: no file has been opened,
    whether the dictionary file exists or not, and the constructor of the
    parent class, which creates the root node, has not run.  Construction
    succeeds only for two words of equal length. *)
Theorem WordAStar__init__lengths
    (AStar__init__ : WordAStar -> WordState -> M WordAStar)
    (startWord goalWord : string) (heuristicType : Z) (w : World) :
  (len startWord <> len goalWord ->
   WordAStar__init__ AStar__init__ startWord goalWord heuristicType w
   = (Raise (RuntimeError "Words must be the same length"), w))
  /\ (forall self w',
        WordAStar__init__ AStar__init__ startWord goalWord heuristicType w
        = (Ok self, w') ->
        len startWord = len goalWord).
Proof.
  unfold WordAStar__init__.
  destruct (decide (len startWord ≠ len goalWord)) as [Hne|Heq]; split.
  - reflexivity.
  - intros self w'. unfold raise. discriminate.
  - intros Hne. contradiction.
  - intros _ _ _. destruct (decide (len startWord = len goalWord)); tauto.
Qed.

Lemma WordAStar__init__lengths_witness :
  WordAStar__init__ root_only "cat" "horse" 0 (mkWorld ∅ [])
  = (Raise (RuntimeError "Words must be the same length"), mkWorld ∅ [])
  /\ len "cat" = len "dog".
Proof.
  split.
  - apply (proj1 (WordAStar__init__lengths root_only "cat" "horse" 0
                                           (mkWorld ∅ []))).
    simpl. lia.
  - apply (proj2 (WordAStar__init__lengths root_only "cat" "dog" 0
                                           small_world)
                 (mkWordAStar "cat" "dog" {["cat"; "dog"]} ∅ 0
                              (Some (mkNode (mkWordState "cat") 0 0 false [])))
                 (mkWorld (files small_world) [DICT_FILENAME])).
    vm_compute. reflexivity.
Defined.

(** * The dictionary *)

Lemma len_lower (s : string) : len (lower s) = len s.
Proof. unfold lower. now rewrite len_join, length_map, len_chars. Qed.

(** [successors] looks up words of the length of the word of the state
    only: two dictionaries with the same words of that length give the same
    result. *)
Lemma successors_tests_length (self self' : WordAStar) (state : WordState) :
  (forall x, len x = len (word state) ->
             (x ∈ dictionary self <-> x ∈ dictionary self')) ->
  successors self state = successors self' state.
Proof.
  intros Hsame. rewrite !successors_keys.
  assert (successor_keys (dictionary self) (word state)
          = successor_keys (dictionary self') (word state)) as ->;
    [|reflexivity].
  unfold successor_keys. apply list_filter_iff. intros k.
  unfold key_in, key_word. apply Hsame, len_substitute.
Qed.

(** C10. Every element of the set [make_dictionary(size)] returns is the
    lowercased, stripped form of a line of the dictionary file whose
    stripped form has length [size], and every such form is in the set; so
    every word of the set has length [size], the length of the words that
    [successors] looks up in it for a state whose word has that length. *)
Theorem make_dictionary_words (size : nat) (w w' : World) (d : gset string) :
  make_dictionary size w = (Ok d, w') ->
  (exists lines,
      files w !! DICT_FILENAME = Some lines
      /\ forall x, x ∈ d <->
           exists line, line ∈ lines /\ len (strip line) = size
                        /\ x = lower (strip line))
  /\ (forall x, x ∈ d -> len x = size)
  /\ (forall self self' state,
        len (word state) = size ->
        (forall x, len x = size ->
                   (x ∈ dictionary self <-> x ∈ dictionary self')) ->
        successors self state = successors self' state).
Proof.
  unfold make_dictionary, mbind, M_bind, readlines.
  destruct (files w !! DICT_FILENAME) as [lines|] eqn:Hfile; [|discriminate].
  intros [= <- <-].
  assert (forall x,
             x ∈ (list_to_set
                    (map (fun w0 => lower (strip w0))
                         (filter (fun w0 => len (strip w0) = size) lines))
                  : gset string) <->
             exists line, line ∈ lines /\ len (strip line) = size
                          /\ x = lower (strip line)) as Hchar.
  { intros x. rewrite elem_of_list_to_set, list_elem_of_In, in_map_iff. split.
    - intros (line & <- & Hline).
      apply list_elem_of_In, list_elem_of_filter in Hline.
      destruct Hline as [Hsize Hin]. now exists line.
    - intros (line & Hin & Hsize & ->). exists line. split; [reflexivity|].
      apply list_elem_of_In, list_elem_of_filter. now split. }
  split; [|split].
  - exists lines. split; [reflexivity | exact Hchar].
  - intros x Hx. apply Hchar in Hx. destruct Hx as (line & _ & Hsize & ->).
    now rewrite len_lower.
  - intros self self' state Hlen Hsame.
    apply successors_tests_length. intros x Hx. apply Hsame. congruence.
Qed.

Lemma make_dictionary_words_witness :
  len "dog" = 3%nat
  /\ successors (mkWordAStar "cat" "dog" {["cat"; "dog"]} ∅ 0 None)
                (mkWordState "cat")
     = successors (mkWordAStar "cat" "dog" {["cat"; "dog"; "horse"]} ∅ 0 None)
                  (mkWordState "cat").
Proof.
  destruct (make_dictionary_words 3 small_world
              (mkWorld (files small_world) [DICT_FILENAME]) {["cat"; "dog"]})
    as (_ & Hlen & Hsame).
  { vm_compute. reflexivity. }
  split.
  - apply Hlen. set_solver.
  - apply Hsame; [reflexivity|]. intros x Hx. simpl.
    split; [intros Hin; apply elem_of_union; now left|].
    intros Hin. apply elem_of_union in Hin. destruct Hin as [Hin|Hin].
    + exact Hin.
    + apply elem_of_singleton in Hin. subst x. discriminate Hx.
Defined.

(** * The branching factor *)

(** Induction on an expansion tree, with the hypothesis for every child. *)
Lemma AStarNode_tree_ind (P : AStarNode -> Prop) :
  (forall s g h e cs, Forall P cs -> P (mkNode s g h e cs)) ->
  forall n, P n.
Proof.
  intros Hnode. fix IH 1. intros [s g h e cs]. apply Hnode.
  induction cs as [|c cs IHcs]; constructor; [apply IH | exact IHcs].
Qed.

(** The mean of 2, 0 and 0 is the double nearest to 2/3,
    0.6666666666666666. *)
Example float_mean_two_thirds :
  float_mean [2; 0; 0] = Ok (S754_finite false 6004799503160661 (-53)).
Proof. vm_compute. reflexivity. Qed.

(** A chain of three expanded nodes needs three frames. *)
Example node_bf_recursion_limit :
  node_bf (with_root small_tree) 2
          (mkNode (mkWordState "cat") 0 0 true [small_tree])
  = Raise (RuntimeError "maximum recursion depth exceeded")
  /\ node_bf (with_root small_tree) 3
             (mkNode (mkWordState "cat") 0 0 true [small_tree])
     = Ok [1; 2; 2].
Proof. split; reflexivity. Qed.

(** The counts of the nodes reached below the children [cs]. *)
Lemma reached_counts (cs : list AStarNode) :
  map children_count
      (flat_map (fun c => if expanded c then reached c else []) cs)
  = flat_map
      (fun c => if expanded c then map children_count (reached c) else [])
      cs.
Proof.
  induction cs as [|c cs IH]; cbn [flat_map map]; [reflexivity|].
  rewrite map_app, IH. now destruct (expanded c).
Qed.

(** The loop of [node_bf], given what the recursive calls do with the
    frames left to them: it appends the counts found below the expanded
    children, in their order, and raises as soon as one of them is too
    deep. *)
Lemma node_bf_loop (self : WordAStar) (frames : nat) :
  (forall c,
      ((reached_depth c <= frames)%nat ->
       node_bf self frames c = Ok (map children_count (reached c)))
      /\ ((frames < reached_depth c)%nat ->
          node_bf self frames c = Raise recursion_error)) ->
  forall (cs : list AStarNode) (bfs : list Z),
    let deepest :=
      fold_right
        (fun c deepest =>
           Nat.max (if expanded c then reached_depth c else 0%nat) deepest)
        0%nat cs in
    let loop :=
      foldM
        (fun bfs c =>
           if expanded c
           then more ← node_bf self frames c; Ok (bfs ++ more)
           else Ok bfs)
        cs bfs in
    ((deepest <= frames)%nat ->
     loop = Ok (bfs ++ flat_map
                         (fun c => if expanded c
                                   then map children_count (reached c)
                                   else [])
                         cs))
    /\ ((frames < deepest)%nat -> loop = Raise recursion_error).
Proof.
  intros Hcall. induction cs as [|c cs IH]; intros bfs; cbn zeta.
  - cbn [fold_right foldM flat_map]. rewrite app_nil_r. split; [auto|lia].
  - cbn [fold_right foldM flat_map].
    destruct (IH bfs) as [IHok IHdeep]. cbn zeta in IHok, IHdeep.
    destruct (expanded c) eqn:Hc.
    + destruct (Hcall c) as [Hok Hdeep].
      destruct (le_lt_dec (reached_depth c) frames) as [Hle|Hgt].
      * rewrite (Hok Hle). cbn [mbind result_bind].
        destruct (IH (bfs ++ map children_count (reached c)))
          as [IHok' IHdeep']. cbn zeta in IHok', IHdeep'.
        split; intros H.
        -- rewrite IHok' by lia. now rewrite <- app_assoc.
        -- apply IHdeep'. lia.
      * rewrite (Hdeep Hgt). cbn [mbind result_bind]. split; [lia|auto].
    + cbn [mbind result_bind]. split; intros H.
      * apply IHok. lia.
      * apply IHdeep. lia.
Qed.

(** [node_bf] lists the children counts of the root and of the nodes
    reached from it through expanded children if the chains of expanded
    nodes fit in the frames it is given, and raises otherwise. *)
Lemma node_bf_reached (self : WordAStar) (frames : nat) :
  forall t : AStarNode,
    ((reached_depth t <= frames)%nat ->
     node_bf self frames t = Ok (map children_count (reached t)))
    /\ ((frames < reached_depth t)%nat ->
        node_bf self frames t = Raise recursion_error).
Proof.
  induction frames as [|frames IH]; intros [s g h e cs].
  - cbn [reached_depth node_bf]. split; [lia|reflexivity].
  - cbn [reached_depth node_bf children reached map].
    destruct (node_bf_loop self frames IH cs [Z.of_nat (length cs)])
      as [Hok Hdeep]. cbn zeta in Hok, Hdeep.
    split; intros H.
    + rewrite Hok by lia. rewrite reached_counts. reflexivity.
    + apply Hdeep. lia.
Qed.

Lemma branching_factor_node_bf (self : WordAStar) (frames : nat)
    (t : AStarNode) :
  root self = Some t ->
  branching_factor self frames
  = (bfs ← node_bf self frames t; float_mean bfs).
Proof. intros Hroot. unfold branching_factor. now rewrite Hroot. Qed.

(** Where only expanded nodes have children, the nodes reached through
    expanded children are the expanded nodes. *)
Lemma reached_expanded (t : AStarNode) :
  forallb (fun n => expanded n || (length (children n) =? 0)%nat)
          (all_nodes t) = true ->
  (if expanded t then reached t else [])
  = filter (fun n => expanded n = true) (all_nodes t).
Proof.
  induction t as [s g h e cs IH] using AStarNode_tree_ind.
  cbn [all_nodes forallb expanded children reached].
  intros Hok. apply andb_prop in Hok. destruct Hok as [Hroot Hrest].
  rewrite filter_cons. cbn [expanded].
  destruct e; cbn [orb] in Hroot.
  - destruct (decide (true = true)); [|congruence]. f_equal.
    clear Hroot. induction IH as [|c cs Hc _ IHcs]; cbn [flat_map];
      [reflexivity|].
    cbn [flat_map] in Hrest. rewrite forallb_app in Hrest.
    apply andb_prop in Hrest. destruct Hrest as [Hc_ok Hcs_ok].
    rewrite filter_app, (Hc Hc_ok), (IHcs Hcs_ok). reflexivity.
  - destruct (decide (false = true)); [congruence|].
    apply Nat.eqb_eq in Hroot. destruct cs; [reflexivity|discriminate].
Qed.

Lemma branching_factor_reached (self : WordAStar) (frames : nat)
    (t : AStarNode) :
  root self = Some t ->
  ((reached_depth t <= frames)%nat ->
   branching_factor self frames
   = float_mean (map children_count (reached t)))
  /\ ((frames < reached_depth t)%nat ->
      branching_factor self frames = Raise recursion_error).
Proof.
  intros Hroot. rewrite (branching_factor_node_bf self frames t Hroot).
  destruct (node_bf_reached self frames t) as [Hok Hdeep].
  split; intros H; [now rewrite (Hok H) | now rewrite (Hdeep H)].
Qed.

(** C2, as the code has it.  For an expansion tree whose chains of
    expanded nodes fit in the nested calls the interpreter still allows,
    [branching_factor] returns the arithmetic mean, computed in floats as
    [float(sum) / len], of the children counts of the root, whatever its
    flag, and of the nodes reached from the root through children whose
    [expanded] flag is true; a child whose flag is false contributes
    nothing, and neither does any node below it.  In a tree whose root is
    expanded and where only expanded nodes have children these are exactly
    the nodes whose [expanded] flag is true.  For a tree with a longer
    chain [node_bf] exceeds the recursion limit and the call raises
    [RuntimeError]. *)
Theorem branching_factor_mean (self : WordAStar) (frames : nat)
    (t : AStarNode) :
  root self = Some t ->
  ((reached_depth t <= frames)%nat ->
   branching_factor self frames
   = float_mean (map children_count (reached t))
   /\ (expansion_closed t = true ->
       branching_factor self frames = float_mean (expanded_counts t)))
  /\ ((frames < reached_depth t)%nat ->
      branching_factor self frames
      = Raise (RuntimeError "maximum recursion depth exceeded")).
Proof.
  intros Hroot.
  destruct (branching_factor_reached self frames t Hroot) as [Hok Hdeep].
  split; [|exact Hdeep].
  intros Hfits. split; [now apply Hok|].
  intros Hclosed. rewrite (Hok Hfits).
  unfold expansion_closed in Hclosed. apply andb_prop in Hclosed.
  destruct Hclosed as [Hexp Hall]. unfold expanded_counts.
  rewrite <- (reached_expanded t Hall), Hexp. reflexivity.
Qed.

Lemma branching_factor_mean_witness :
  (branching_factor (with_root small_tree) 10
   = float_mean (map children_count (reached small_tree))
   /\ branching_factor (with_root small_tree) 10
      = float_mean (expanded_counts small_tree))
  /\ branching_factor (with_root small_tree) 1
     = Raise (RuntimeError "maximum recursion depth exceeded").
Proof.
  split.
  - destruct (proj1 (branching_factor_mean (with_root small_tree) 10
                       small_tree eq_refl))
      as [Hreached Hclosed]; [simpl; lia|].
    split; [exact Hreached | apply Hclosed; reflexivity].
  - apply (proj2 (branching_factor_mean (with_root small_tree) 1
                    small_tree eq_refl)).
    simpl. lia.
Defined.

(** C2, as the specification states it, fails: the count of the root is
    averaged also when the flag of the root is false.  For a root that was
    never expanded and has no children the result is 0.0 where no node is
    expanded; for an unexpanded root above one expanded node with three
    children the result is 2.0 where the mean over the expanded nodes
    is 3.0. *)
Lemma branching_factor_counts_unexpanded_root :
  root (with_root goal_root) = Some goal_root
  /\ branching_factor (with_root goal_root) 10 = Ok (S754_zero false)
  /\ float_mean (expanded_counts goal_root) = Raise ZeroDivisionError
  /\ root (with_root unexpanded_root) = Some unexpanded_root
  /\ branching_factor (with_root unexpanded_root) 10
     = Ok (S754_finite false 4503599627370496 (-51))
  /\ float_mean (expanded_counts unexpanded_root)
     = Ok (S754_finite false 6755399441055744 (-51))
  /\ ~ (forall self frames t,
          root self = Some t ->
          branching_factor self frames = float_mean (expanded_counts t)).
Proof.
  repeat split; try (vm_compute; reflexivity).
  intros Hclaim.
  specialize (Hclaim (with_root goal_root) 10%nat goal_root eq_refl).
  vm_compute in Hclaim. discriminate Hclaim.
Qed.

(** C3, as the code has it.  When no node of the tree was ever expanded
    and the interpreter allows the one call of [node_bf],
    [branching_factor] raises no error for the want of data: it returns
    the quotient [float(n) / 1] of the children count [n] of the root,
    which is 0.0 for a root without children. *)
Theorem branching_factor_nothing_expanded (self : WordAStar) (frames : nat)
    (t : AStarNode) :
  root self = Some t ->
  (forall n, n ∈ all_nodes t -> expanded n = false) ->
  (1 <= frames)%nat ->
  branching_factor self frames = float_mean [children_count t]
  /\ (children t = [] ->
      branching_factor self frames = Ok (S754_zero false)).
Proof.
  intros Hroot Hnone Hframes.
  assert (forall cs : list AStarNode,
             (forall c, c ∈ cs -> expanded c = false) ->
             flat_map (fun c => if expanded c then reached c else []) cs = []
             /\ fold_right
                  (fun c deepest =>
                     Nat.max (if expanded c then reached_depth c else 0%nat)
                             deepest)
                  0%nat cs = 0%nat) as Hflat.
  { induction cs as [|c cs IH]; intros Hcs; [split; reflexivity|].
    cbn [flat_map fold_right]. rewrite (Hcs c) by now left.
    destruct IH as [-> ->]; [|split; reflexivity].
    intros c' Hc'. apply Hcs. now right. }
  assert (reached t = [t] /\ reached_depth t = 1%nat) as [Hreached Hdepth].
  { destruct t as [s g h e cs]. cbn [reached reached_depth].
    destruct (Hflat cs) as [-> ->]; [|split; reflexivity].
    intros c Hc. apply Hnone. cbn [all_nodes]. right.
    apply list_elem_of_In, in_flat_map. exists c.
    split; [now apply list_elem_of_In|].
    destruct c. cbn [all_nodes]. now left. }
  destruct (branching_factor_reached self frames t Hroot) as [Hok _].
  rewrite Hok by lia. rewrite Hreached. cbn [map].
  split; [reflexivity|].
  intros Hleaf. unfold children_count. rewrite Hleaf. reflexivity.
Qed.

Lemma branching_factor_nothing_expanded_witness :
  branching_factor (with_root goal_root) 1
  = float_mean [children_count goal_root]
  /\ (children goal_root = [] ->
      branching_factor (with_root goal_root) 1 = Ok (S754_zero false)).
Proof.
  apply (branching_factor_nothing_expanded (with_root goal_root) 1
                                           goal_root).
  - reflexivity.
  - intros n Hn. apply list_elem_of_singleton in Hn. now subst n.
  - lia.
Defined.

(** C3, as the specification states it, fails: for a tree in which no node
    was ever expanded [branching_factor] returns 0.0 and raises no
    error. *)
Lemma branching_factor_of_unexpanded_tree :
  root (with_root goal_root) = Some goal_root
  /\ (forall n, n ∈ all_nodes goal_root -> expanded n = false)
  /\ branching_factor (with_root goal_root) 10 = Ok (S754_zero false)
  /\ ~ (forall self frames t,
          root self = Some t ->
          (forall n, n ∈ all_nodes t -> expanded n = false) ->
          exists e, branching_factor self frames = Raise e).
Proof.
  assert (forall n, n ∈ all_nodes goal_root -> expanded n = false) as Hnone.
  { intros n Hn. apply list_elem_of_singleton in Hn. now subst n. }
  split; [reflexivity|]. split; [exact Hnone|].
  split; [vm_compute; reflexivity|].
  intros Hclaim.
  destruct (Hclaim (with_root goal_root) 10%nat goal_root eq_refl Hnone)
    as [e He].
  vm_compute in He. discriminate He.
Qed.

(** * levenshtein: the distance it computes *)

Lemma edit_distance_nil_r (a : list ascii) :
  edit_distance a [] = Z.of_nat (length a).
Proof. destruct a; reflexivity. Qed.

Lemma edit_distance_cons (x y : ascii) (a b : list ascii) :
  edit_distance (x :: a) (y :: b)
  = min3 (edit_distance a (y :: b) + 1) (edit_distance (x :: a) b + 1)
         (edit_distance a b + int_of_bool (char_ne x y)).
Proof. reflexivity. Qed.

(** The inner loop turns the row of the prefix [A] of [s1] into the row of
    the prefix with one more letter, [c1]. *)
Lemma levenshtein_inner_distance (c1 : ascii) (A s2c : list ascii)
    (prev : list Z) :
  (forall j, (j <= length s2c)%nat ->
             prev !! j = Some (edit_distance A (rev (take j s2c)))) ->
  forall (cs : list ascii) (k : nat) (cur : list Z),
    drop k s2c = cs ->
    (k <= length s2c)%nat ->
    length cur = S k ->
    (forall j, (j <= k)%nat ->
               cur !! j = Some (edit_distance (c1 :: A) (rev (take j s2c)))) ->
    exists row,
      foldM (levenshtein_inner c1 prev) (enumerate_from k cs) cur = Ok row
      /\ length row = S (length s2c)
      /\ (forall j, (j <= length s2c)%nat ->
            row !! j = Some (edit_distance (c1 :: A) (rev (take j s2c)))).
Proof.
  intros Hprev. induction cs as [|c2 cs IH]; intros k cur Hdrop Hk Hlen Hcur.
  - assert (k = length s2c) as ->.
    { apply (f_equal length) in Hdrop. rewrite length_drop in Hdrop.
      simpl in Hdrop. lia. }
    exists cur. simpl. auto.
  - assert (s2c !! k = Some c2) as Hc2.
    { rewrite <- (Nat.add_0_r k), <- lookup_drop, Hdrop. reflexivity. }
    pose proof (lookup_lt_Some _ _ _ Hc2) as Hklt.
    assert (drop (S k) s2c = cs) as Hdrop'.
    { rewrite (drop_S _ _ _ Hc2) in Hdrop. now injection Hdrop. }
    assert (rev (take (S k) s2c) = c2 :: rev (take k s2c)) as Hrev.
    { rewrite (take_S_r _ _ _ Hc2), rev_app_distr. reflexivity. }
    cbn [enumerate_from foldM levenshtein_inner].
    rewrite (getitem_lookup _ _ _ (Hprev (k + 1)%nat ltac:(lia))).
    cbn [mbind result_bind].
    rewrite (getitem_lookup _ _ _ (Hcur k ltac:(lia))).
    cbn [mbind result_bind].
    rewrite (getitem_lookup _ _ _ (Hprev k ltac:(lia))).
    cbn [mbind result_bind].
    replace (k + 1)%nat with (S k) by lia. rewrite Hrev.
    rewrite <- edit_distance_cons.
    apply (IH (S k)); [exact Hdrop' | lia | |].
    + rewrite length_app. simpl. lia.
    + intros j Hj. destruct (decide (j = S k)) as [->|Hne].
      * rewrite lookup_app_r by lia. rewrite Hlen, Nat.sub_diag, Hrev.
        reflexivity.
      * rewrite lookup_app_l by lia. apply Hcur. lia.
Qed.

(** The outer loop ends with the row of the whole of [s1]. *)
Lemma levenshtein_outer_distance (s1c : list ascii) (s2 : string) :
  forall (cs1 : list ascii) (k : nat) (prev : list Z),
    drop k s1c = cs1 ->
    (k <= length s1c)%nat ->
    length prev = S (len s2) ->
    (forall j, (j <= len s2)%nat ->
               prev !! j = Some (edit_distance (rev (take k s1c))
                                               (rev (take j (chars s2))))) ->
    exists row,
      foldM (levenshtein_outer s2) (enumerate_from k cs1) prev = Ok row
      /\ length row = S (len s2)
      /\ (forall j, (j <= len s2)%nat ->
            row !! j = Some (edit_distance (rev s1c)
                                           (rev (take j (chars s2))))).
Proof.
  induction cs1 as [|c1 cs1 IH]; intros k prev Hdrop Hk Hlen Hprev.
  - assert (k = length s1c) as ->.
    { apply (f_equal length) in Hdrop. rewrite length_drop in Hdrop.
      simpl in Hdrop. lia. }
    exists prev. rewrite firstn_all in Hprev. simpl. auto.
  - assert (s1c !! k = Some c1) as Hc1.
    { rewrite <- (Nat.add_0_r k), <- lookup_drop, Hdrop. reflexivity. }
    pose proof (lookup_lt_Some _ _ _ Hc1) as Hklt.
    assert (drop (S k) s1c = cs1) as Hdrop'.
    { rewrite (drop_S _ _ _ Hc1) in Hdrop. now injection Hdrop. }
    assert (rev (take (S k) s1c) = c1 :: rev (take k s1c)) as Hrev.
    { rewrite (take_S_r _ _ _ Hc1), rev_app_distr. reflexivity. }
    cbn [enumerate_from foldM levenshtein_outer]. unfold enumerate.
    destruct (levenshtein_inner_distance c1 (rev (take k s1c)) (chars s2)
                prev) with (cs := chars s2) (k := 0%nat)
                           (cur := [Z.of_nat k + 1])
      as (row & Hrow & Hrowlen & Hrowval).
    { intros j Hj. apply Hprev. now rewrite <- len_chars. }
    { reflexivity. }
    { lia. }
    { reflexivity. }
    { intros j Hj. replace j with 0%nat by lia. cbn [take rev lookup].
      rewrite edit_distance_nil_r. simpl length.
      rewrite length_rev, length_take. simpl. f_equal. lia. }
    rewrite Hrow. cbn [mbind result_bind].
    apply (IH (S k)); [exact Hdrop' | lia | now rewrite Hrowlen, len_chars |].
    intros j Hj. rewrite Hrev. apply Hrowval. now rewrite len_chars.
Qed.

Lemma range_Z_lookup (n j : nat) :
  (j < n)%nat -> range_Z n !! j = Some (Z.of_nat j).
Proof.
  intros Hj. unfold range_Z, range.
  change (map Z.of_nat (seq 0 n)) with (Z.of_nat <$> seq 0 n).
  rewrite list_lookup_fmap, lookup_seq_lt by exact Hj. reflexivity.
Qed.

Lemma levenshtein_rows_distance (s1 s2 : string) :
  levenshtein_rows s1 s2
  = Ok (edit_distance (rev (chars s1)) (rev (chars s2))).
Proof.
  unfold levenshtein_rows. destruct (decide (len s2 = 0%nat)) as [Hz|Hnz].
  - rewrite <- len_chars in Hz. destruct (chars s2); [|discriminate].
    simpl. now rewrite edit_distance_nil_r, length_rev, len_chars.
  - destruct (levenshtein_outer_distance (chars s1) s2 (chars s1) 0
                (range_Z (len s2 + 1)))
      as (row & Hrow & Hlen & Hval).
    { reflexivity. }
    { lia. }
    { rewrite range_Z_length. lia. }
    { intros j Hj. rewrite range_Z_lookup by lia.
      change (take 0 (chars s1)) with (@nil ascii). cbn [rev edit_distance].
      rewrite length_rev, length_take, len_chars. f_equal. lia. }
    unfold enumerate. rewrite Hrow. cbn [mbind result_bind].
    unfold getitem_last. rewrite last_lookup, Hlen. cbn [pred].
    rewrite (Hval (len s2)) by lia.
    now rewrite <- len_chars, firstn_all.
Qed.

Lemma min3_swap (a b c : Z) : min3 a b c = min3 b a c.
Proof. unfold min3. lia. Qed.

Lemma char_ne_sym (x y : ascii) : char_ne x y = char_ne y x.
Proof. unfold char_ne. now rewrite Ascii.eqb_sym. Qed.

Lemma edit_distance_sym (a : list ascii) :
  forall b, edit_distance a b = edit_distance b a.
Proof.
  induction a as [|x a IHa]; intros b.
  - now rewrite edit_distance_nil_r.
  - induction b as [|y b IHb].
    + now rewrite edit_distance_nil_r.
    + rewrite !edit_distance_cons, IHb, (IHa (y :: b)), (IHa b).
      rewrite (char_ne_sym x y). apply min3_swap.
Qed.

Lemma levenshtein_value (s1 s2 : string) :
  levenshtein s1 s2 = Ok (edit_distance (rev (chars s1)) (rev (chars s2))).
Proof.
  unfold levenshtein. destruct (decide (len s1 < len s2)%nat).
  - rewrite levenshtein_rows_distance. f_equal. apply edit_distance_sym.
  - apply levenshtein_rows_distance.
Qed.

(** X1. [levenshtein] never raises and, with or without the swap of its
    arguments, returns the value of the edit distance recurrence on the
    last letters of the two words. *)
Theorem levenshtein_distance (s1 s2 : string) :
  levenshtein s1 s2 = Ok (edit_distance (rev (chars s1)) (rev (chars s2))).
Proof.
  unfold levenshtein. destruct (decide (len s1 < len s2)%nat) as [Hlt|Hge].
  - rewrite levenshtein_rows_distance.
    now rewrite (edit_distance_sym (rev (chars s2))).
  - apply levenshtein_rows_distance.
Qed.

Lemma edit_distance_bounds (a : list ascii) :
  forall b,
    Z.abs (Z.of_nat (length a) - Z.of_nat (length b)) <= edit_distance a b
    /\ edit_distance a b <= Z.max (Z.of_nat (length a)) (Z.of_nat (length b)).
Proof.
  induction a as [|x a IHa]; intros b.
  - simpl. lia.
  - induction b as [|y b IHb].
    + rewrite edit_distance_nil_r. simpl length. lia.
    + rewrite edit_distance_cons.
      pose proof (IHa (y :: b)) as H1. pose proof (IHa b) as H3.
      pose proof (int_of_bool_range (char_ne x y)) as Hne.
      simpl length in *. unfold min3. lia.
Qed.

Lemma edit_distance_zero (a : list ascii) :
  forall b, edit_distance a b = 0 <-> a = b.
Proof.
  induction a as [|x a IHa]; intros b.
  - simpl. destruct b; simpl; split; intros H; try reflexivity;
      try discriminate; lia.
  - induction b as [|y b IHb].
    + rewrite edit_distance_nil_r. simpl length. split; [lia|discriminate].
    + rewrite edit_distance_cons.
      pose proof (edit_distance_bounds a (y :: b)) as H1.
      pose proof (edit_distance_bounds (x :: a) b) as H2.
      pose proof (edit_distance_bounds a b) as H3.
      pose proof (int_of_bool_range (char_ne x y)) as Hne.
      split.
      * intros Hz.
        assert (edit_distance a b = 0 /\ int_of_bool (char_ne x y) = 0)
          as [Hab Hxy] by (unfold min3 in Hz; lia).
        apply IHa in Hab. subst b. f_equal.
        unfold char_ne in Hxy. destruct (Ascii.eqb_spec x y); [assumption|].
        discriminate Hxy.
      * intros [= -> ->]. rewrite char_ne_refl, (proj2 (IHa b) eq_refl).
        unfold min3, int_of_bool. lia.
Qed.

Lemma one_changed_length (l l' : list ascii) :
  one_changed l l' -> length l = length l'.
Proof. induction 1; simpl; congruence. Qed.

(** Changing one letter of a word changes its distance to any other word
    by at most 1. *)
Lemma edit_distance_one_changed (a a' : list ascii) :
  one_changed a a' ->
  forall b, Z.abs (edit_distance a b - edit_distance a' b) <= 1.
Proof.
  induction 1 as [x x' l | x l l' Hl IH]; intros b.
  - induction b as [|y b IHb]; [rewrite !edit_distance_nil_r; simpl; lia|].
    rewrite !edit_distance_cons.
    pose proof (int_of_bool_range (char_ne x y)).
    pose proof (int_of_bool_range (char_ne x' y)).
    unfold min3. lia.
  - induction b as [|y b IHb].
    + rewrite !edit_distance_nil_r. simpl length.
      rewrite (one_changed_length _ _ Hl). lia.
    + rewrite !edit_distance_cons.
      pose proof (IH (y :: b)). pose proof (IH b).
      unfold min3. lia.
Qed.

Lemma one_changed_app_r (l l' m : list ascii) :
  one_changed l l' -> one_changed (l ++ m) (l' ++ m).
Proof. induction 1; simpl; constructor. assumption. Qed.

Lemma one_changed_app_l (m l l' : list ascii) :
  one_changed l l' -> one_changed (m ++ l) (m ++ l').
Proof. intros H. induction m; simpl; [assumption | now constructor]. Qed.

Lemma one_changed_rev (l l' : list ascii) :
  one_changed l l' -> one_changed (rev l) (rev l').
Proof.
  induction 1 as [x x' l | x l l' Hl IH]; simpl.
  - apply one_changed_app_l. constructor.
  - now apply one_changed_app_r.
Qed.

Lemma one_changed_insert (l : list ascii) :
  forall (i : nat) (a : ascii),
    (i < length l)%nat -> one_changed l (<[i := a]> l).
Proof.
  induction l as [|x l IH]; intros i a Hi; simpl in Hi; [lia|].
  destruct i as [|i]; simpl; constructor. apply IH. lia.
Qed.

Lemma substitution_one_changed (w w' : string) :
  substitution w w' -> one_changed (rev (chars w)) (rev (chars w')).
Proof.
  intros (i & a & Hi & ->). unfold substitute. rewrite chars_join.
  apply one_changed_rev, one_changed_insert. now rewrite len_chars.
Qed.

Lemma chars_inj (s1 s2 : string) : chars s1 = chars s2 -> s1 = s2.
Proof. intros H. now rewrite <- (join_chars s1), <- (join_chars s2), H. Qed.

(** X2. [levenshtein] is symmetric: the two orders of the arguments give
    the same result, also for two words of equal length, where the code
    does not swap them. *)
Theorem levenshtein_symmetric (s1 s2 : string) :
  levenshtein s1 s2 = levenshtein s2 s1.
Proof.
  rewrite !levenshtein_value. f_equal. apply edit_distance_sym.
Qed.

(** X3. [levenshtein] returns a value between the difference and the larger
    of the two lengths; in particular the distance to the empty word, on
    either side, is the length of the other word. *)
Theorem levenshtein_bounds (s1 s2 : string) :
  (exists v,
      levenshtein s1 s2 = Ok v
      /\ Z.abs (Z.of_nat (len s1) - Z.of_nat (len s2)) <= v
      /\ v <= Z.max (Z.of_nat (len s1)) (Z.of_nat (len s2)))
  /\ levenshtein s1 "" = Ok (Z.of_nat (len s1))
  /\ levenshtein "" s2 = Ok (Z.of_nat (len s2)).
Proof.
  split; [|split].
  - rewrite levenshtein_value. eexists. split; [reflexivity|].
    pose proof (edit_distance_bounds (rev (chars s1)) (rev (chars s2))) as H.
    now rewrite !length_rev, !len_chars in H.
  - rewrite levenshtein_value. simpl.
    now rewrite edit_distance_nil_r, length_rev, len_chars.
  - rewrite levenshtein_value. simpl.
    now rewrite length_rev, len_chars.
Qed.

(** X4. [levenshtein] returns 0 exactly for two equal words. *)
Theorem levenshtein_zero (s1 s2 : string) :
  levenshtein s1 s2 = Ok 0 <-> s1 = s2.
Proof.
  rewrite levenshtein_value. split.
  - intros [= Hz]. apply edit_distance_zero in Hz.
    apply chars_inj. now rewrite <- (rev_involutive (chars s1)), Hz,
                                 rev_involutive.
  - intros ->. f_equal. now apply edit_distance_zero.
Qed.

(** X5. Replacing one letter of either word changes the result of
    [levenshtein] by at most 1. *)
Theorem levenshtein_substitution (w w' g : string) :
  substitution w w' ->
  exists v v',
    levenshtein w g = Ok v /\ levenshtein w' g = Ok v'
    /\ levenshtein g w = Ok v /\ levenshtein g w' = Ok v'
    /\ Z.abs (v - v') <= 1.
Proof.
  intros Hsub. rewrite !levenshtein_value.
  rewrite (edit_distance_sym (rev (chars g)) (rev (chars w))).
  rewrite (edit_distance_sym (rev (chars g)) (rev (chars w'))).
  eexists _, _. repeat (split; [reflexivity|]).
  apply edit_distance_one_changed, substitution_one_changed, Hsub.
Qed.

Lemma levenshtein_substitution_witness :
  exists v v',
    levenshtein "mare" "colt" = Ok v /\ levenshtein "more" "colt" = Ok v'
    /\ levenshtein "colt" "mare" = Ok v /\ levenshtein "colt" "more" = Ok v'
    /\ Z.abs (v - v') <= 1.
Proof.
  apply (levenshtein_substitution "mare" "more" "colt").
  exists 1%nat, "o"%char. split; [simpl; lia | reflexivity].
Defined.

(** * The heuristic and the moves of the search *)

(** X6. The custom heuristic is 0 exactly at the goal: [heuristic_custom]
    returns 0 for a state if and only if [is_goal] holds of it. *)
Theorem heuristic_custom_zero_is_goal (self : WordAStar) (state : WordState) :
  heuristic_custom self state = Ok 0 <-> is_goal self state = true.
Proof.
  unfold heuristic_custom, is_goal. rewrite levenshtein_value.
  destruct (decide (word state = gw self)) as [Heq|Hne]; split; intros H;
    try reflexivity; try discriminate.
  - rewrite Heq. f_equal. now apply edit_distance_zero.
  - exfalso. apply Hne. injection H as Hz. apply edit_distance_zero in Hz.
    apply chars_inj.
    now rewrite <- (rev_involutive (chars (word state))), Hz, rev_involutive.
Qed.

(** X7. Under both heuristic types the heuristic is consistent: across a
    move that [successors] offers, the heuristic values of the two states
    differ by at most the cost of the move. *)
Theorem heuristic_consistent (self : WordAStar) (s : WordState)
    (sc : WordState * Z) :
  heuristicType self = 0 \/ heuristicType self = 1 ->
  move self s sc ->
  exists h h',
    heuristic self s = Ok h /\ heuristic self (fst sc) = Ok h'
    /\ h <= snd sc + h' /\ h' <= snd sc + h.
Proof.
  intros Htype Hmove.
  destruct (move_inv _ _ _ Hmove) as (k & Hk & Hfst & Hcost).
  rewrite Hfst, Hcost. unfold heuristic.
  destruct Htype as [H0|H1].
  - destruct (decide (heuristicType self = 0)); [|contradiction].
    exists 0, 0. unfold heuristic_null. repeat split; lia.
  - destruct (decide (heuristicType self = 0)); [lia|].
    destruct (decide (heuristicType self = 1)); [|contradiction].
    unfold heuristic_custom. simpl.
    apply elem_of_successor_keys in Hk. destruct Hk as (Hi & _ & _).
    rewrite !levenshtein_value. eexists _, _.
    split; [reflexivity|]. split; [reflexivity|].
    assert (substitution (word s) (key_word (word s) k)) as Hsub.
    { now exists (fst k), (snd k). }
    pose proof (edit_distance_one_changed _ _
                  (substitution_one_changed _ _ Hsub)
                  (rev (chars (gw self)))) as Habs.
    lia.
Qed.

Lemma heuristic_consistent_witness :
  exists h h',
    heuristic (mkWordAStar "mare" "colt" {["more"]} ∅ 1 None)
              (mkWordState "mare") = Ok h
    /\ heuristic (mkWordAStar "mare" "colt" {["more"]} ∅ 1 None)
                 (mkWordState "more") = Ok h'
    /\ h <= 1 + h' /\ h' <= 1 + h.
Proof.
  apply (heuristic_consistent (mkWordAStar "mare" "colt" {["more"]} ∅ 1 None)
           (mkWordState "mare") (mkWordState "more", 1)).
  - right. reflexivity.
  - exists [mkWordState "more"], [1]. split; [vm_compute; reflexivity|].
    simpl. left.
Defined.

(** * successors: more on the result *)

Lemma candidates_from_length (n : nat) :
  forall s : nat,
    length (flat_map (fun i => map (fun a => (i, a)) ALPHABET) (seq s n))
    = (length ALPHABET * n)%nat.
Proof.
  induction n as [|n IH]; intros s; cbn [seq flat_map]; [simpl; lia|].
  rewrite length_app, IH, length_map. lia.
Qed.

Lemma candidates_length (n : nat) : length (candidates n) = (26 * n)%nat.
Proof. unfold candidates, range. now rewrite candidates_from_length. Qed.

(** X8. A state has at most 26 successors per letter of its word. *)
Theorem successors_count (self : WordAStar) (state : WordState) :
  exists succs costs,
    successors self state = Ok (succs, costs)
    /\ (length succs <= 26 * len (word state))%nat.
Proof.
  eexists _, _. split; [apply successors_keys|].
  rewrite length_map. unfold successor_keys.
  rewrite <- candidates_length. apply length_filter.
Qed.

Lemma substitute_same (w : string) (i : nat) (a : ascii) :
  chars w !! i = Some a -> substitute w i a = w.
Proof.
  intros Hi. unfold substitute. now rewrite list_insert_id, join_chars.
Qed.

Lemma substitute_back (w : string) (i : nat) (a b : ascii) :
  chars w !! i = Some b -> substitute (substitute w i a) i b = w.
Proof.
  intros Hi. unfold substitute.
  now rewrite chars_join, list_insert_insert_eq, list_insert_id, join_chars.
Qed.

(** X9. A state whose word is in the dictionary and has a letter of the
    alphabet at some position is among its own successors. *)
Theorem successors_self (self : WordAStar) (state : WordState) (i : nat)
    (a : ascii) :
  chars (word state) !! i = Some a ->
  a ∈ ALPHABET ->
  word state ∈ dictionary self ->
  exists succs costs,
    successors self state = Ok (succs, costs) /\ state ∈ succs.
Proof.
  intros Hi Ha Hin. eexists _, _. split; [apply successors_keys|].
  apply list_elem_of_In, in_map_iff. exists (i, a). split.
  - unfold key_state, key_word. simpl. rewrite (substitute_same _ _ _ Hi).
    now destruct state.
  - apply list_elem_of_In, elem_of_successor_keys. unfold key_word. simpl.
    rewrite (substitute_same _ _ _ Hi).
    apply lookup_lt_Some in Hi. rewrite len_chars in Hi. auto.
Qed.

Lemma successors_self_witness :
  exists succs costs,
    successors (mkWordAStar "mare" "colt" {["mare"; "more"]} ∅ 0 None)
               (mkWordState "mare") = Ok (succs, costs)
    /\ mkWordState "mare" ∈ succs.
Proof.
  apply (successors_self
           (mkWordAStar "mare" "colt" {["mare"; "more"]} ∅ 0 None)
           (mkWordState "mare") 0 "m"%char).
  - reflexivity.
  - apply elem_of_ALPHABET. vm_compute. lia.
  - simpl. set_solver.
Defined.

(** X10. The moves can be taken back: if the word of a state is in the
    dictionary and made of letters of the alphabet, the state is a
    successor of each of its successors. *)
Theorem successors_symmetric (self : WordAStar) (s s' : WordState)
    (succs : list WordState) (costs : list Z) :
  successors self s = Ok (succs, costs) ->
  s' ∈ succs ->
  word s ∈ dictionary self ->
  Forall (fun a => a ∈ ALPHABET) (chars (word s)) ->
  exists succs' costs',
    successors self s' = Ok (succs', costs') /\ s ∈ succs'.
Proof.
  rewrite successors_keys. intros [= <- <-] Hs' Hin Hletters.
  apply list_elem_of_In, in_map_iff in Hs'. destruct Hs' as (k & <- & Hk).
  apply list_elem_of_In, elem_of_successor_keys in Hk.
  destruct Hk as (Hi & _ & _).
  destruct (lookup_lt_is_Some_2 (chars (word s)) (fst k)) as [b Hb].
  { now rewrite len_chars. }
  eexists _, _. split; [apply successors_keys|].
  apply list_elem_of_In, in_map_iff. exists (fst k, b). split.
  - unfold key_state, key_word. cbn [word fst snd].
    rewrite (substitute_back _ _ _ _ Hb). now destruct s.
  - apply list_elem_of_In, elem_of_successor_keys.
    unfold key_state, key_word. cbn [word fst snd].
    rewrite (substitute_back _ _ _ _ Hb), len_substitute.
    split; [exact Hi|]. split; [|exact Hin].
    rewrite Forall_lookup in Hletters. exact (Hletters _ _ Hb).
Qed.

Lemma successors_symmetric_witness :
  exists succs' costs',
    successors (mkWordAStar "mare" "colt" {["mare"; "more"]} ∅ 0 None)
               (mkWordState "more") = Ok (succs', costs')
    /\ mkWordState "mare" ∈ succs'.
Proof.
  apply (successors_symmetric
           (mkWordAStar "mare" "colt" {["mare"; "more"]} ∅ 0 None)
           (mkWordState "mare") (mkWordState "more")
           [mkWordState "mare"; mkWordState "mare"; mkWordState "more";
            mkWordState "mare"; mkWordState "mare"]
           [1; 1; 1; 1; 1]).
  - vm_compute. reflexivity.
  - right. right. left.
  - simpl. set_solver.
  - apply (bool_decide_unpack _). vm_compute. reflexivity.
Defined.

(** * The dictionary: the form of its words *)

Lemma lower_char_idemp (c : ascii) : lower_char (lower_char c) = lower_char c.
Proof. destruct c as [[] [] [] [] [] [] [] []]; reflexivity. Qed.

Lemma is_space_lower_char (c : ascii) : is_space (lower_char c) = is_space c.
Proof. destruct c as [[] [] [] [] [] [] [] []]; reflexivity. Qed.

Lemma lower_idemp (s : string) : lower (lower s) = lower s.
Proof.
  unfold lower. rewrite chars_join, map_map. f_equal.
  apply map_ext. intros c. apply lower_char_idemp.
Qed.

Lemma lstrip_chars_lower (l : list ascii) :
  lstrip_chars (map lower_char l) = map lower_char (lstrip_chars l).
Proof.
  induction l as [|c l IH]; [reflexivity|].
  simpl. rewrite is_space_lower_char. now destruct (is_space c).
Qed.

Lemma strip_lower (s : string) : strip (lower s) = lower (strip s).
Proof.
  unfold strip, lower. rewrite !chars_join. f_equal.
  now rewrite lstrip_chars_lower, <- map_rev, lstrip_chars_lower, <- map_rev.
Qed.

Lemma lstrip_chars_idemp (l : list ascii) :
  lstrip_chars (lstrip_chars l) = lstrip_chars l.
Proof.
  induction l as [|c l IH]; [reflexivity|].
  simpl. destruct (is_space c) eqn:Hc; [exact IH|]. simpl. now rewrite Hc.
Qed.

Lemma lstrip_chars_keeps_last (c : ascii) (xs : list ascii) :
  is_space c = false ->
  exists ys, lstrip_chars (xs ++ [c]) = ys ++ [c].
Proof.
  intros Hc. induction xs as [|x xs IH]; simpl.
  - rewrite Hc. now exists [].
  - destruct (is_space x); [exact IH|]. now exists (x :: xs).
Qed.

(** What [strip] leaves has no white space at either end. *)
Lemma strip_chars_fixed (l : list ascii) :
  let r := rev (lstrip_chars (rev (lstrip_chars l))) in
  lstrip_chars r = r /\ lstrip_chars (rev r) = rev r.
Proof.
  intros r. subst r. split.
  - destruct (lstrip_chars l) as [|c t] eqn:Hl; [reflexivity|].
    assert (is_space c = false) as Hc.
    { clear -Hl. induction l as [|x l IH]; [discriminate|].
      simpl in Hl. destruct (is_space x) eqn:Hx; [now apply IH|].
      now injection Hl as <- _. }
    change (rev (c :: t)) with (rev t ++ [c]).
    destruct (lstrip_chars_keeps_last c (rev t) Hc) as [ys ->].
    rewrite rev_app_distr. simpl. now rewrite Hc.
  - now rewrite rev_involutive, lstrip_chars_idemp.
Qed.

Lemma strip_idemp (s : string) : strip (strip s) = strip s.
Proof.
  unfold strip. rewrite chars_join.
  destruct (strip_chars_fixed (chars s)) as [H1 H2]. cbn zeta in H1, H2.
  rewrite H1, H2, rev_involutive. reflexivity.
Qed.

(** What [make_dictionary] does with the file: a missing file raises
    [IOError] and leaves the world as it is; otherwise the file is noted as
    opened and the words are the normalised lines of the right length. *)
Lemma make_dictionary_run (size : nat) (w : World) :
  make_dictionary size w
  = match files w !! DICT_FILENAME with
    | Some lines =>
        (Ok (list_to_set
               (map (fun l => lower (strip l))
                    (filter (fun l => len (strip l) = size) lines))),
         mkWorld (files w) (DICT_FILENAME :: opened w))
    | None => (Raise IOError, w)
    end.
Proof.
  unfold make_dictionary, mbind, M_bind, readlines.
  now destruct (files w !! DICT_FILENAME).
Qed.

Lemma elem_of_dictionary (size : nat) (lines : list string) (x : string) :
  x ∈ (list_to_set
         (map (fun l => lower (strip l))
              (filter (fun l => len (strip l) = size) lines)) : gset string)
  <-> exists line, line ∈ lines /\ len (strip line) = size
                   /\ x = lower (strip line).
Proof.
  rewrite elem_of_list_to_set, list_elem_of_In, in_map_iff. split.
  - intros (line & <- & Hline).
    apply list_elem_of_In, list_elem_of_filter in Hline.
    destruct Hline as [Hsize Hin]. now exists line.
  - intros (line & Hin & Hsize & ->). exists line. split; [reflexivity|].
    apply list_elem_of_In, list_elem_of_filter. now split.
Qed.

(** X11. The words of the dictionary are in normal form: [strip] and
    [lower] leave each of them as it is, so a word has no white space at
    its ends and no capital letter. *)
Theorem make_dictionary_normal (size : nat) (w w' : World) (d : gset string)
    (x : string) :
  make_dictionary size w = (Ok d, w') ->
  x ∈ d ->
  lower x = x /\ strip x = x.
Proof.
  rewrite make_dictionary_run.
  destruct (files w !! DICT_FILENAME) as [lines|]; [|discriminate].
  intros [= <- <-] Hx. apply elem_of_dictionary in Hx.
  destruct Hx as (line & _ & _ & ->). split.
  - apply lower_idemp.
  - now rewrite strip_lower, strip_idemp.
Qed.

Lemma make_dictionary_normal_witness :
  lower "cat" = "cat"%string /\ strip "cat" = "cat"%string.
Proof.
  apply (make_dictionary_normal 3 small_world
           (mkWorld (files small_world) [DICT_FILENAME]) {["cat"; "dog"]}).
  - vm_compute. reflexivity.
  - apply elem_of_union. left. now apply elem_of_singleton.
Defined.

(** X12. The dictionary depends on the file only through the set of its
    normalised lines: two files whose lines have the same lowercased,
    stripped forms, in any order and any number of times, give the same
    dictionary, and a file without lines gives the empty one. *)
Theorem make_dictionary_lines (size : nat) (w1 w2 : World)
    (lines1 lines2 : list string) :
  files w1 !! DICT_FILENAME = Some lines1 ->
  files w2 !! DICT_FILENAME = Some lines2 ->
  (forall x, x ∈ map (fun l => lower (strip l)) lines1
             <-> x ∈ map (fun l => lower (strip l)) lines2) ->
  fst (make_dictionary size w1) = fst (make_dictionary size w2)
  /\ (lines1 = [] -> fst (make_dictionary size w1) = Ok ∅).
Proof.
  intros H1 H2 Hsame. rewrite !make_dictionary_run, H1, H2. simpl. split.
  - f_equal. apply set_eq. intros x. rewrite !elem_of_dictionary.
    assert (forall lines,
               (exists line, line ∈ lines /\ len (strip line) = size
                             /\ x = lower (strip line))
               <-> (x ∈ map (fun l => lower (strip l)) lines
                    /\ len x = size)) as Hnorm.
    { intros lines. rewrite list_elem_of_In, in_map_iff. split.
      - intros (line & Hin & Hsize & ->). split.
        + exists line. split; [reflexivity | now apply list_elem_of_In].
        + now rewrite len_lower.
      - intros [(line & <- & Hin) Hsize]. exists line.
        rewrite len_lower in Hsize. split; [now apply list_elem_of_In|].
        now split. }
    rewrite !Hnorm, Hsame. reflexivity.
  - intros ->. reflexivity.
Qed.

Lemma make_dictionary_lines_witness :
  fst (make_dictionary 3 small_world)
  = fst (make_dictionary 3
           (mkWorld {[DICT_FILENAME := ["horse"; "DOG"; "cat"; "dog"]%string]}
                    [])).
Proof.
  apply (make_dictionary_lines 3 small_world _
           [String.append "Cat" newline; String.append " dog" newline;
            String.append "horse" newline]
           ["horse"; "DOG"; "cat"; "dog"]%string).
  - reflexivity.
  - reflexivity.
  - intros x. vm_compute map. rewrite !list_elem_of_In. simpl. tauto.
Defined.

(** * The constructor, for two words of one length *)

(** X13. For a start word and a goal word of equal length, a missing
    dictionary file makes the constructor raise [IOError] before the
    constructor of the parent class runs, and the world is unchanged.  With
    the file there, the parent constructor is run once, in the world where
    the file is noted as opened, on the state of the start word and an
    object that holds the two words, the heuristic type, an empty visited
    ledger, no root yet, and a dictionary all of whose words have the
    length of the goal word. *)
Theorem WordAStar__init__equal_lengths
    (AStar__init__ : WordAStar -> WordState -> M WordAStar)
    (startWord goalWord : string) (heuristicType : Z) (w : World) :
  len startWord = len goalWord ->
  (files w !! DICT_FILENAME = None ->
   WordAStar__init__ AStar__init__ startWord goalWord heuristicType w
   = (Raise IOError, w))
  /\ (forall lines, files w !! DICT_FILENAME = Some lines ->
      exists d : gset string,
        WordAStar__init__ AStar__init__ startWord goalWord heuristicType w
        = AStar__init__
            (mkWordAStar startWord goalWord d ∅ heuristicType None)
            (mkWordState startWord)
            (mkWorld (files w) (DICT_FILENAME :: opened w))
        /\ forall x, x ∈ d -> len x = len goalWord).
Proof.
  intros Hlen. unfold WordAStar__init__.
  destruct (decide (len startWord ≠ len goalWord)); [contradiction|].
  unfold mbind, M_bind. rewrite make_dictionary_run. split.
  - intros ->. reflexivity.
  - intros lines ->. eexists. split; [reflexivity|].
    intros x Hx. apply elem_of_dictionary in Hx.
    destruct Hx as (line & _ & Hsize & ->). rewrite len_lower. congruence.
Qed.

Lemma WordAStar__init__equal_lengths_witness :
  WordAStar__init__ root_only "cat" "dog" 0 (mkWorld ∅ [])
  = (Raise IOError, mkWorld ∅ [])
  /\ exists d : gset string,
       WordAStar__init__ root_only "cat" "dog" 0 small_world
       = root_only (mkWordAStar "cat" "dog" d ∅ 0 None) (mkWordState "cat")
                   (mkWorld (files small_world) [DICT_FILENAME])
       /\ forall x, x ∈ d -> len x = len "dog".
Proof.
  split.
  - apply (proj1 (WordAStar__init__equal_lengths root_only "cat" "dog" 0
                    (mkWorld ∅ []) eq_refl)).
    reflexivity.
  - apply (proj2 (WordAStar__init__equal_lengths root_only "cat" "dog" 0
                    small_world eq_refl)
                 [String.append "Cat" newline; String.append " dog" newline;
                  String.append "horse" newline]).
    reflexivity.
Defined.

(** * The visited ledger: its size *)

(** X14. Registering a node for a word that the ledger already holds keeps
    the number of entries, registering one for a new word adds one entry,
    and [clear_visited] leaves none. *)
Theorem visited_size (self : WordAStar) (state : WordState)
    (node : AStarNode) :
  size (visited (visit self state node))
  = (if decide (word state ∈ dom (visited self))
     then size (visited self)
     else S (size (visited self)))
  /\ size (visited (clear_visited self)) = 0%nat.
Proof.
  split; [|apply map_size_empty].
  simpl. destruct (decide (word state ∈ dom (visited self))) as [Hin|Hout].
  - apply elem_of_dom in Hin. destruct Hin as [old Hold].
    now apply map_size_insert_Some.
  - apply not_elem_of_dom in Hout. now apply map_size_insert_None.
Qed.

(** * levenshtein: the triangle inequality *)

Lemma edit_distance_triangle_below (n : nat) :
  forall a b c : list ascii,
    (length a + length b + length c < n)%nat ->
    edit_distance a c <= edit_distance a b + edit_distance b c.
Proof.
  induction n as [|n IH]; intros a b c Hn; [lia|].
  pose proof (edit_distance_bounds a b) as Bab.
  pose proof (edit_distance_bounds b c) as Bbc.
  pose proof (edit_distance_bounds a c) as Bac.
  destruct a as [|x a]; [simpl length in *; lia|].
  destruct b as [|y b]; [simpl length in *; lia|].
  destruct c as [|z c]; [simpl length in *; lia|].
  clear Bab Bbc Bac. simpl length in Hn.
  pose proof (IH a (y :: b) (z :: c) ltac:(simpl; lia)) as T1.
  pose proof (IH (x :: a) b (z :: c) ltac:(simpl; lia)) as T2.
  pose proof (IH (x :: a) (y :: b) c ltac:(simpl; lia)) as T3.
  pose proof (IH a b c ltac:(simpl; lia)) as T4.
  pose proof (IH a b (z :: c) ltac:(simpl; lia)) as T5.
  pose proof (IH (x :: a) b c ltac:(simpl; lia)) as T6.
  pose proof (char_ne_triangle x y z) as Hne.
  pose proof (int_of_bool_range (char_ne x y)) as Hxy.
  pose proof (int_of_bool_range (char_ne y z)) as Hyz.
  pose proof (edit_distance_cons x z a c) as Eac.
  rewrite (edit_distance_cons x y a b) in *.
  rewrite (edit_distance_cons y z b c) in *.
  unfold min3 in *. lia.
Qed.

Lemma edit_distance_triangle (a b c : list ascii) :
  edit_distance a c <= edit_distance a b + edit_distance b c.
Proof.
  apply (edit_distance_triangle_below
           (S (length a + length b + length c))). lia.
Qed.

(** X16. [levenshtein] satisfies the triangle inequality: the distance
    between two words is at most the sum of their distances to any third
    word. *)
Theorem levenshtein_triangle (s1 s2 s3 : string) :
  exists v12 v23 v13,
    levenshtein s1 s2 = Ok v12 /\ levenshtein s2 s3 = Ok v23
    /\ levenshtein s1 s3 = Ok v13 /\ v13 <= v12 + v23.
Proof.
  rewrite !levenshtein_value. eexists _, _, _.
  repeat (split; [reflexivity|]). apply edit_distance_triangle.
Qed.

(** X17. For two words of equal length [levenshtein] returns at most the
    number of positions at which they differ. *)
Theorem levenshtein_le_hamming (s1 s2 : string) :
  len s1 = len s2 ->
  exists v,
    levenshtein s1 s2 = Ok v /\ v <= hamming (chars s1) (chars s2).
Proof.
  intros Hlen. destruct (levenshtein_spec s1 s2) as (v & Hv & _ & Hle).
  exists v. split; [exact Hv | now apply Hle].
Qed.

Lemma levenshtein_le_hamming_witness :
  exists v,
    levenshtein "mare" "more" = Ok v
    /\ v <= hamming (chars "mare") (chars "more").
Proof. apply (levenshtein_le_hamming "mare" "more"). reflexivity. Defined.

(** * The routes of the search *)

Lemma route_moves (self : WordAStar) (moves : list (WordState * Z)) :
  forall s goal : WordState,
    route self s moves goal ->
    Forall (fun sc => len (word (fst sc)) = len (word s)
                      /\ word (fst sc) ∈ dictionary self
                      /\ snd sc = 1) moves.
Proof.
  induction moves as [|sc moves IH]; intros s goal H; [constructor|].
  destruct H as [Hmove Hrest].
  destruct (move_inv _ _ _ Hmove) as (k & Hk & Hfst & Hcost).
  apply elem_of_successor_keys in Hk. destruct Hk as (_ & _ & Hin).
  assert (len (word (fst sc)) = len (word s)) as Hlen.
  { rewrite Hfst. apply len_substitute. }
  constructor.
  - split; [exact Hlen|]. split; [now rewrite Hfst | exact Hcost].
  - specialize (IH _ _ Hrest). rewrite Forall_forall in IH.
    apply Forall_forall. intros sc' Hsc'. rewrite <- Hlen. now apply IH.
Qed.

(** X18. Along a route built from [successors], every state reached holds
    a word of the dictionary that has the length of the word the route
    starts from, and every move costs 1. *)
Theorem route_states (self : WordAStar) (moves : list (WordState * Z))
    (s goal : WordState) :
  route self s moves goal ->
  Forall (fun sc => len (word (fst sc)) = len (word s)
                    /\ word (fst sc) ∈ dictionary self
                    /\ snd sc = 1) moves.
Proof.
  revert s goal. induction moves as [|sc moves IH]; intros s goal Hroute;
    [constructor|].
  destruct Hroute as [Hmove Hrest].
  destruct (move_inv _ _ _ Hmove) as (k & Hk & Hfst & Hcost).
  apply elem_of_successor_keys in Hk. destruct Hk as (_ & _ & Hin).
  assert (len (word (fst sc)) = len (word s)) as Hlen
    by (rewrite Hfst; apply len_substitute).
  constructor; [now rewrite Hfst at 2|].
  apply (Forall_impl _ _ _ (IH _ _ Hrest)).
  intros sc' Hsc'. now rewrite <- Hlen.
Qed.

Lemma route_states_witness :
  Forall (fun sc =>
            len (word (fst sc)) = len (word (mkWordState "mare"))
            /\ word (fst sc)
               ∈ dictionary (mkWordAStar "mare" "more" {["more"]} ∅ 0 None)
            /\ snd sc = 1)
         [(mkWordState "more", 1)].
Proof.
  apply (route_states (mkWordAStar "mare" "more" {["more"]} ∅ 0 None)
           [(mkWordState "more", 1)] (mkWordState "mare")
           (mkWordState "more")).
  simpl. split; [|reflexivity].
  exists [mkWordState "more"], [1]. split; [vm_compute; reflexivity|].
  simpl. left.
Defined.

Lemma route_end (self : WordAStar) (moves : list (WordState * Z)) :
  forall s goal : WordState,
    route self s moves goal ->
    goal = List.last (map fst moves) s.
Proof.
  induction moves as [|sc moves IH]; intros s goal H; simpl in H.
  - now subst goal.
  - destruct H as [_ Hrest]. rewrite (IH _ _ Hrest).
    cbn [map]. generalize (map fst moves) as l. intros l.
    destruct l as [|x l]; [reflexivity|].
    revert x. induction l as [|y l IHl]; intros x; [reflexivity|].
    cbn [List.last] in *. apply (IHl y).
Qed.

(** X19. A route of the search can only end at the goal word if that word
    has the length of the word the route starts from and either is that
    word or is in the dictionary: for words of different lengths, or a goal
    word missing from the dictionary, no route leads from the start to the
    goal. *)
Theorem route_to_goal (self : WordAStar) (s : WordState)
    (moves : list (WordState * Z)) :
  route self s moves (mkWordState (gw self)) ->
  len (gw self) = len (word s)
  /\ (gw self = word s \/ gw self ∈ dictionary self).
Proof.
  intros Hroute. pose proof (route_moves _ _ _ _ Hroute) as Hstates.
  pose proof (route_end _ _ _ _ Hroute) as Hend.
  destruct moves as [|sc moves] using rev_ind.
  - simpl in Hend. subst s. simpl. auto.
  - clear IHmoves. rewrite map_app in Hend. cbn [map] in Hend.
    rewrite last_last in Hend.
    apply Forall_app in Hstates. destruct Hstates as [_ Hlast].
    apply Forall_inv in Hlast. destruct Hlast as (Hlen & Hin & _).
    rewrite <- Hend in Hlen, Hin. simpl in Hlen, Hin. auto.
Qed.

Lemma route_to_goal_witness :
  len (gw (mkWordAStar "mare" "more" {["more"]} ∅ 0 None))
  = len (word (mkWordState "mare"))
  /\ (gw (mkWordAStar "mare" "more" {["more"]} ∅ 0 None)
      = word (mkWordState "mare")
      \/ gw (mkWordAStar "mare" "more" {["more"]} ∅ 0 None)
         ∈ dictionary (mkWordAStar "mare" "more" {["more"]} ∅ 0 None)).
Proof.
  apply (route_to_goal (mkWordAStar "mare" "more" {["more"]} ∅ 0 None)
           (mkWordState "mare") [(mkWordState "more", 1)]).
  simpl. split; [|reflexivity].
  exists [mkWordState "more"], [1]. split; [vm_compute; reflexivity|].
  simpl. left.
Defined.

(** X20. Under both heuristic types the heuristic is admissible on the
    graph that [successors] spans: its value at a state is non-negative
    and at most the cost of any route from that state to the goal word. *)
Theorem heuristic_admissible (self : WordAStar) (state : WordState)
    (moves : list (WordState * Z)) :
  heuristicType self = 0 \/ heuristicType self = 1 ->
  route self state moves (mkWordState (gw self)) ->
  exists h,
    heuristic self state = Ok h /\ 0 <= h /\ h <= route_cost moves.
Proof.
  intros Htype Hroute.
  destruct (route_transforms _ _ _ _ Hroute) as [Htr Hcost].
  unfold heuristic. destruct Htype as [H0|H1].
  - destruct (decide (heuristicType self = 0)); [|contradiction].
    exists 0. unfold heuristic_null. split; [reflexivity|]. lia.
  - destruct (decide (heuristicType self = 0)); [lia|].
    destruct (decide (heuristicType self = 1)); [|contradiction].
    unfold heuristic_custom.
    destruct (transforms_hamming _ _ _ Htr) as [Hlen Hham]. simpl in Hlen.
    destruct (levenshtein_spec (word state) (gw self))
      as (v & Hv & Hpos & Hle).
    exists v. split; [exact Hv|]. split; [exact Hpos|].
    specialize (Hle (eq_sym Hlen)). rewrite length_map in Hham.
    simpl in Hham. lia.
Qed.

Lemma heuristic_admissible_witness :
  exists h,
    heuristic (mkWordAStar "mare" "more" {["more"]} ∅ 1 None)
              (mkWordState "mare") = Ok h
    /\ 0 <= h /\ h <= route_cost [(mkWordState "more", 1)].
Proof.
  apply (heuristic_admissible
           (mkWordAStar "mare" "more" {["more"]} ∅ 1 None)
           (mkWordState "mare") [(mkWordState "more", 1)]).
  - right. reflexivity.
  - simpl. split; [|reflexivity].
    exists [mkWordState "more"], [1]. split; [vm_compute; reflexivity|].
    simpl. left.
Defined.
